(** * jest-snapshot: snapshot state machine, deep comparator, literal
      generator and inline-snapshot patcher

    A shallow embedding of
    - [State.ts]            (class [SnapshotState]: [compare], [match],
                             [fail], [save], [clear], ...),
    - the literal generator ([getSymbolAstFromStandardSymbol],
                             [generateAstFromValue], [generateSnapshot]),
    - [inline_snapshots.ts] ([groupSnapshotsBy], [traverseAst],
                             [saveSnapshotsForFile], [saveInlineSnapshots]).

    JavaScript values are a tagged tree; records carry the heap location
    that [===] compares, so two structurally equal records at different
    locations are different objects.  A self-referential record is not a
    finite tree and is outside of the model (the source documents it as
    unsupported). *)

From Stdlib Require Import ZArith Bool Ascii String List.
From Stdlib Require Import Floats.SpecFloat.
From stdpp Require Import base option list gmap strings pretty.

Set Default Proof Using "Type".
Set Warnings "-register-all".
Set Warnings "-clear-no-such-hyp".
Local Open Scope string_scope.
Local Open Scope list_scope.

(* ===================================================================== *)
(** ** JavaScript values *)
(* ===================================================================== *)

Module Js.

(** Heap location of an object or a function: the identity [===] tests. *)
Definition loc := nat.

(** [Array.isArray] distinguishes arrays from other records.  An array is
    represented by its enumerable properties, the indices in order
    (["0"], ["1"], ...). *)
Inductive object_class := Plain | Array.

(** [SnapshotValue] (types.ts), with [bigint] which the literal generator
    also dispatches on.
    - a number is an IEEE-754 value ([spec_float]): NaN, signed zeros and
      infinities are there;
    - a symbol has an identity and an optional description;
    - [VObject l c props]: [props] are the enumerable string-keyed
      properties (own and inherited) in [for .. in] order;
    - [VIterable l items props]: a non-array object with a
      [Symbol.iterator] method, [items] is what iterating it yields. *)
Inductive value : Type :=
| VUndefined
| VNull
| VBoolean (b : bool)
| VNumber (x : spec_float)
| VBigInt (z : Z)
| VString (s : string)
| VSymbol (id : nat) (description : option string)
| VFunction (l : loc)
| VObject (l : loc) (c : object_class) (props : list (string * value))
| VIterable (l : loc) (items : list value) (props : list (string * value)).

(** Result of the [typeof] operator. *)
Inductive js_type :=
| TUndefined | TObject | TBoolean | TNumber | TBigInt | TString | TSymbol
| TFunction.

Definition js_type_eqb (a b : js_type) : bool :=
  match a, b with
  | TUndefined, TUndefined | TObject, TObject | TBoolean, TBoolean
  | TNumber, TNumber | TBigInt, TBigInt | TString, TString
  | TSymbol, TSymbol | TFunction, TFunction => true
  | _, _ => false
  end.

Definition typeof (v : value) : js_type :=
  match v with
  | VUndefined => TUndefined
  | VNull => TObject
  | VBoolean _ => TBoolean
  | VNumber _ => TNumber
  | VBigInt _ => TBigInt
  | VString _ => TString
  | VSymbol _ _ => TSymbol
  | VFunction _ => TFunction
  | VObject _ _ _ | VIterable _ _ _ => TObject
  end.

(** [ToBoolean]: what [if (v)], [!v] and [v && ...] test. *)
Definition truthy (v : value) : bool :=
  match v with
  | VUndefined | VNull => false
  | VBoolean b => b
  | VNumber x =>
      match x with
      | S754_zero _ | S754_nan => false
      | _ => true
      end
  | VBigInt z => negb (Z.eqb z 0)
  | VString s => negb (String.eqb s EmptyString)
  | VSymbol _ _ | VFunction _ | VObject _ _ _ | VIterable _ _ _ => true
  end.

(** [Number.isNaN]. *)
Definition Number_isNaN (v : value) : bool :=
  match v with
  | VNumber S754_nan => true
  | _ => false
  end.

(** [Symbol.prototype.toString]: ["Symbol(" + description + ")"]. *)
Definition symbol_toString (description : option string) : string :=
  "Symbol(" +:+ default EmptyString description +:+ ")".

(** The strict equality operator [===]: IEEE equality on numbers (NaN is
    unequal to itself, the two zeros are equal), identity on symbols,
    functions and objects. *)
Definition strict_equals (a b : value) : bool :=
  match a, b with
  | VUndefined, VUndefined => true
  | VNull, VNull => true
  | VBoolean x, VBoolean y => Bool.eqb x y
  | VNumber x, VNumber y => SFeqb x y
  | VBigInt x, VBigInt y => Z.eqb x y
  | VString x, VString y => String.eqb x y
  | VSymbol i _, VSymbol j _ => Nat.eqb i j
  | VFunction l, VFunction m => Nat.eqb l m
  | VObject l _ _, VObject m _ _ => Nat.eqb l m
  | VIterable l _ _, VIterable m _ _ => Nat.eqb l m
  | _, _ => false
  end.

(** Enumerable string-keyed properties, in [for .. in] order. *)
Definition enum_props (v : value) : list (string * value) :=
  match v with
  | VObject _ _ props | VIterable _ _ props => props
  | _ => []
  end.

Fixpoint assoc (key : string) (props : list (string * value)) : option value :=
  match props with
  | [] => None
  | (k, v) :: rest => if String.eqb k key then Some v else assoc key rest
  end.

(** Property read [v?.[key]]: [undefined] when [v] is nullish or has no
    such property.  Only the enumerable properties are modelled. *)
Definition get (v : value) (key : string) : value :=
  default VUndefined (assoc key (enum_props v)).

(** [compare] (State.ts).  The [for .. in] loop with its early [return
    false] is the inner [loop]; [received[key]] is the value the loop is
    at.  After the object branch the code falls through to the final
    [return received === expected]. *)
Fixpoint compare (received expected : value) {struct received} : bool :=
  if negb (js_type_eqb (typeof received) (typeof expected)) then false
  else
    let deep (props : list (string * value)) : bool :=
      if negb (truthy expected) then false
      else if negb ((fix loop (ps : list (string * value)) : bool :=
                       match ps with
                       | [] => true
                       | (key, v) :: ps' =>
                           if negb (compare v (get expected key)) then false
                           else loop ps'
                       end) props) then false
      else if negb (Nat.eqb (length props) (length (enum_props expected)))
           then false
      else strict_equals received expected in
    match received with
    | VFunction _ => true
    | VNumber _ =>
        if Number_isNaN received && Number_isNaN expected then true
        else strict_equals received expected
    | VSymbol _ d =>
        match expected with
        | VSymbol _ d' => String.eqb (symbol_toString d) (symbol_toString d')
        | _ => false
        end
    | VObject _ _ props => deep props
    | VIterable _ _ props => deep props
    | _ => strict_equals received expected
    end.

(** *** What the statements about [compare] are written with *)

(** The keys a [for .. in] loop yields are distinct, at every depth. *)
Fixpoint distinct_keys (v : value) : bool :=
  match v with
  | VObject _ _ props | VIterable _ _ props =>
      bool_decide (NoDup (map fst props))
      && (fix all (ps : list (string * value)) : bool :=
            match ps with
            | [] => true
            | (_, x) :: ps' => distinct_keys x && all ps'
            end) props
  | _ => true
  end.

(** Induction on values that reaches the values stored in the properties
    of a record. *)
Section value_induction.
Variable P : value -> Prop.
Hypothesis Hundefined : P VUndefined.
Hypothesis Hnull : P VNull.
Hypothesis Hboolean : forall b, P (VBoolean b).
Hypothesis Hnumber : forall x, P (VNumber x).
Hypothesis Hbigint : forall z, P (VBigInt z).
Hypothesis Hstring : forall s, P (VString s).
Hypothesis Hsymbol : forall i d, P (VSymbol i d).
Hypothesis Hfunction : forall l, P (VFunction l).
Hypothesis Hobject :
  forall l c props, Forall (fun kv => P kv.2) props -> P (VObject l c props).
Hypothesis Hiterable :
  forall l items props,
    Forall P items -> Forall (fun kv => P kv.2) props ->
    P (VIterable l items props).

Fixpoint value_props_ind (v : value) : P v :=
  let props_ind :=
    fix go (ps : list (string * value)) : Forall (fun kv => P kv.2) ps :=
      match ps with
      | [] => @List.Forall_nil _ _
      | kv :: ps' => @List.Forall_cons _ _ kv ps' (value_props_ind kv.2) (go ps')
      end in
  match v with
  | VUndefined => Hundefined
  | VNull => Hnull
  | VBoolean b => Hboolean b
  | VNumber x => Hnumber x
  | VBigInt z => Hbigint z
  | VString s => Hstring s
  | VSymbol i d => Hsymbol i d
  | VFunction l => Hfunction l
  | VObject l c props => Hobject l c props (props_ind props)
  | VIterable l items props =>
      Hiterable l items props
        ((fix go (vs : list value) : Forall P vs :=
            match vs with
            | [] => @List.Forall_nil _ _
            | x :: vs' => @List.Forall_cons _ _ x vs' (value_props_ind x) (go vs')
            end) items)
        (props_ind props)
  end.
End value_induction.

(** The loop of [compare] over the properties of [received]. *)
Definition every_key_compares (props : list (string * value))
    (expected : value) : bool :=
  forallb (fun kv => compare kv.2 (get expected kv.1)) props.

(** What the record branch of [compare] computes. *)
Definition compare_deep (received expected : value) : bool :=
  js_type_eqb TObject (typeof expected)
  && truthy expected
  && every_key_compares (enum_props received) expected
  && Nat.eqb (length (enum_props received)) (length (enum_props expected))
  && strict_equals received expected.

(** Records and sequences: the values the record branch of [compare]
    is for. *)
Definition is_record (v : value) : bool :=
  match v with
  | VObject _ _ _ | VIterable _ _ _ => true
  | _ => false
  end.

End Js.

(* ===================================================================== *)
(** ** Returning and throwing *)
(* ===================================================================== *)

(** A call either returns or throws.  Where the callee mutates fields in
    place, the state it leaves is kept next to the outcome in both
    cases. *)
Inductive outcome (A : Type) :=
| Returned (a : A)
| Thrown (message : string).
Arguments Returned {A} a.
Arguments Thrown {A} message.

(* ===================================================================== *)
(** ** The literal generator ([generateSnapshot] and its helpers) *)
(* ===================================================================== *)

Module Literal.
Import Js.

(** What [RegExp.prototype.exec] returns on a match of a pattern with one
    group: the matched text and the text of group 1. *)
Record RegExpExecArray := { matched_text : string; group1 : string }.

(** The argument the source hands to [t.identifier]: a string, or (in
    [getSymbolAstFromStandardSymbol]) the whole match array [name]. *)
Inductive identifier_name :=
| NameString (s : string)
| NameMatch (m : RegExpExecArray).

(** [GeneratedAst]: the nodes the [@babel/types] builders are asked for,
    with [TemplateLiteral] for the serialized mode. *)
Inductive GeneratedAst : Type :=
| StringLiteral (s : string)
| NumericLiteral (x : spec_float)
| BigIntLiteral (digits : string)
| BooleanLiteral (b : bool)
| CallExpression (callee : GeneratedAst) (arguments : list GeneratedAst)
| Identifier (name : identifier_name)
| NullLiteral
| ArrayExpression (elements : list GeneratedAst)
| MemberExpression (object property : GeneratedAst)
| ObjectExpression (properties : list (GeneratedAst * GeneratedAst))
| TemplateLiteral (raw : string).

(** Strings are sequences of 8-bit code units here, so the line
    terminators that [.] refuses are LF and CR. *)
Definition is_line_terminator (c : ascii) : bool :=
  Ascii.eqb c "010"%char || Ascii.eqb c "013"%char.

Fixpoint strip_prefix (p s : string) : option string :=
  match p, s with
  | EmptyString, _ => Some s
  | String a p', String b s' =>
      if Ascii.eqb a b then strip_prefix p' s' else None
  | String _ _, EmptyString => None
  end.

Definition starts_with_close (s : string) : bool :=
  match s with
  | String c _ => Ascii.eqb c ")"%char
  | EmptyString => false
  end.

(** [(.+)\)] anchored at the head of [s]: the group is greedy, so a longer
    group is preferred, and the group is followed by a closing
    parenthesis.  Returns the text of the group. *)
Fixpoint dot_plus_close (s : string) : option string :=
  match s with
  | EmptyString => None
  | String c s' =>
      if is_line_terminator c then None
      else match dot_plus_close s' with
           | Some cap => Some (String c cap)
           | None =>
               if starts_with_close s' then Some (String c EmptyString)
               else None
           end
  end.

Definition symbol_prefix : string := "Symbol(Symbol.".

Definition match_here (s : string) : option RegExpExecArray :=
  match strip_prefix symbol_prefix s with
  | Some rest =>
      match dot_plus_close rest with
      | Some cap =>
          Some {| matched_text := symbol_prefix +:+ cap +:+ ")";
                  group1 := cap |}
      | None => None
      end
  | None => None
  end.

(** [/Symbol\(Symbol\.(.+)\)/.exec(s)]: the pattern is not anchored, the
    leftmost match wins. *)
Fixpoint symbol_pattern_exec (s : string) : option RegExpExecArray :=
  match match_here s with
  | Some m => Some m
  | None =>
      match s with
      | EmptyString => None
      | String _ s' => symbol_pattern_exec s'
      end
  end.

Record GenerateSnapshotOptions := { serialized : bool }.

Section GenerateSnapshot.
(** [escapeBacktickString] lives in [utils.ts]. *)
Variable escapeBacktickString : string -> string.

(** [t.identifier(name)] of [@babel/types] on the match array [name]:
    the builder is declared for a string and is handed an array; what it
    does with it (it validates its argument, and throws a [TypeError] on
    one that is not a string) belongs to that library. *)
Variable identifier_of_match : RegExpExecArray -> outcome GeneratedAst.

(** [getSymbolAstFromStandardSymbol]: [name] is the result of [exec], and
    it is [name] itself that goes to [t.identifier], after
    [t.identifier('Symbol')] has been built. *)
Definition getSymbolAstFromStandardSymbol (description : option string)
  : outcome (option GeneratedAst) :=
  match symbol_pattern_exec (symbol_toString description) with
  | None => Returned None
  | Some name =>
      match identifier_of_match name with
      | Thrown m => Thrown m
      | Returned property =>
          Returned
            (Some (MemberExpression (Identifier (NameString "Symbol"))
                                    property))
      end
  end.

(** [generateAstFromValue]: the chain of [if .. else if] in source order
    ([undefined], [null], string, number, bigint, boolean, function,
    array, iterable, symbol, record).  The elements of an array and the
    properties of a record are generated in order; an error thrown for
    one of them ends the call. *)
Fixpoint generateAstFromValue (value : Js.value) : outcome GeneratedAst :=
  match value with
  | VUndefined => Returned (Identifier (NameString "undefined"))
  | VNull => Returned NullLiteral
  | VString s => Returned (StringLiteral s)
  | VNumber x => Returned (NumericLiteral x)
  | VBigInt z => Returned (BigIntLiteral (pretty z))
  | VBoolean b => Returned (BooleanLiteral b)
  | VFunction _ =>
      Returned
        (CallExpression
           (MemberExpression (Identifier (NameString "expect"))
                             (Identifier (NameString "any")))
           [Identifier (NameString "Function")])
  | VObject _ Array props =>
      match
        (fix each (ps : list (string * Js.value))
           : outcome (list GeneratedAst) :=
           match ps with
           | [] => Returned []
           | (_, v) :: ps' =>
               match generateAstFromValue v with
               | Thrown m => Thrown m
               | Returned element =>
                   match each ps' with
                   | Thrown m => Thrown m
                   | Returned elements => Returned (element :: elements)
                   end
               end
           end) props
      with
      | Thrown m => Thrown m
      | Returned elements => Returned (ArrayExpression elements)
      end
  | VIterable _ items _ =>
      match
        (fix each (vs : list Js.value) : outcome (list GeneratedAst) :=
           match vs with
           | [] => Returned []
           | v :: vs' =>
               match generateAstFromValue v with
               | Thrown m => Thrown m
               | Returned element =>
                   match each vs' with
                   | Thrown m => Thrown m
                   | Returned elements => Returned (element :: elements)
                   end
               end
           end) items
      with
      | Thrown m => Thrown m
      | Returned elements => Returned (ArrayExpression elements)
      end
  | VSymbol _ description =>
      match getSymbolAstFromStandardSymbol description with
      | Thrown m => Thrown m
      | Returned (Some referencedSymbol) => Returned referencedSymbol
      | Returned None =>
          Returned (StringLiteral (symbol_toString description))
      end
  | VObject _ Plain props =>
      match
        (fix each (ps : list (string * Js.value))
           : outcome (list (GeneratedAst * GeneratedAst)) :=
           match ps with
           | [] => Returned []
           | (key, v) :: ps' =>
               match generateAstFromValue v with
               | Thrown m => Thrown m
               | Returned property =>
                   match each ps' with
                   | Thrown m => Thrown m
                   | Returned properties =>
                       Returned
                         ((Identifier (NameString key), property)
                            :: properties)
                   end
               end
           end) props
      with
      | Thrown m => Thrown m
      | Returned properties => Returned (ObjectExpression properties)
      end
  end.

(** [generateSnapshot]; in serialized mode the value is used as a
    string ([value as string]), nothing is produced for another kind of
    value. *)
Definition generateSnapshot (value : Js.value)
    (options : GenerateSnapshotOptions) : outcome (option GeneratedAst) :=
  if serialized options then
    match value with
    | VString s => Returned (Some (TemplateLiteral (escapeBacktickString s)))
    | _ => Returned None
    end
  else
    match generateAstFromValue value with
    | Thrown m => Thrown m
    | Returned ast => Returned (Some ast)
    end.
End GenerateSnapshot.

End Literal.

(* ===================================================================== *)
(** ** Shared between the state machine and the patcher *)
(* ===================================================================== *)

(** [Frame] of jest-message-util; [line] and [column] may be missing. *)
Record Frame := { file : string; line : option Z; column : option Z }.


(* ===================================================================== *)
(** ** The matcher state machine ([SnapshotState]) *)
(* ===================================================================== *)

Module State.
Import Js.

(** [Config.SnapshotUpdateState]. *)
Inductive SnapshotUpdateState := UpdateAll | UpdateNew | UpdateNone.

Definition is_all (u : SnapshotUpdateState) : bool :=
  match u with UpdateAll => true | _ => false end.
Definition is_new (u : SnapshotUpdateState) : bool :=
  match u with UpdateNew => true | _ => false end.

(** The records [_addSnapshot] pushes on [_inlineSnapshots]. *)
Record InlineSnapshot := {
  frame : Frame;
  serialized : bool;
  snapshot : value;
}.

(** [SnapshotMatchOptions]; its [serialized] is [opt_serialized] here, the
    name being taken by the field of [InlineSnapshot].  [error] is the
    stack of the error passed in, if one is. *)
Record SnapshotMatchOptions := {
  testName : string;
  received : value;
  key : option string;
  opt_serialized : bool;
  inlineSnapshot : option string;
  isInline : bool;
  error : option string;
  hasInlineSnapshot : bool;
}.

(** [SnapshotReturnOptions]; its [key] is [ret_key] here. *)
Record SnapshotReturnOptions := {
  actual : value;
  actualSerialized : string;
  count : nat;
  expected : value;
  expectedSerialized : string;
  hasSnapshot : bool;
  ret_key : string;
  pass : bool;
}.

Record SaveStatus := { deleted : bool; saved : bool }.

(** The fields of the class.  [_initialData] and [_snapshotData] are set
    by the constructor to one and the same object and every write goes
    through [_snapshotData[key]], so the two names stay aliases of the one
    mapping kept here.  The totals are JavaScript numbers used as
    counters (exact below 2^53). *)
Record SnapshotState := {
  _counters : gmap string nat;
  _dirty : bool;
  _index : nat;
  _updateSnapshot : SnapshotUpdateState;
  _snapshotData : gmap string value;
  _snapshotPath : string;
  _inlineSnapshots : list InlineSnapshot;
  _uncheckedKeys : gset string;
  _prettierPath : string;
  added : nat;
  expand : bool;
  matched : nat;
  unmatched : nat;
  updated : nat;
}.

(** Assignments to one field, [this._counters = c] and the like. *)
Definition set_counters (c : gmap string nat) (s : SnapshotState) :=
  {| _counters := c; _dirty := _dirty s; _index := _index s;
     _updateSnapshot := _updateSnapshot s; _snapshotData := _snapshotData s;
     _snapshotPath := _snapshotPath s; _inlineSnapshots := _inlineSnapshots s;
     _uncheckedKeys := _uncheckedKeys s; _prettierPath := _prettierPath s;
     added := added s; expand := expand s; matched := matched s;
     unmatched := unmatched s; updated := updated s |}.

Definition set_dirty (d : bool) (s : SnapshotState) :=
  {| _counters := _counters s; _dirty := d; _index := _index s;
     _updateSnapshot := _updateSnapshot s; _snapshotData := _snapshotData s;
     _snapshotPath := _snapshotPath s; _inlineSnapshots := _inlineSnapshots s;
     _uncheckedKeys := _uncheckedKeys s; _prettierPath := _prettierPath s;
     added := added s; expand := expand s; matched := matched s;
     unmatched := unmatched s; updated := updated s |}.

Definition set_index (i : nat) (s : SnapshotState) :=
  {| _counters := _counters s; _dirty := _dirty s; _index := i;
     _updateSnapshot := _updateSnapshot s; _snapshotData := _snapshotData s;
     _snapshotPath := _snapshotPath s; _inlineSnapshots := _inlineSnapshots s;
     _uncheckedKeys := _uncheckedKeys s; _prettierPath := _prettierPath s;
     added := added s; expand := expand s; matched := matched s;
     unmatched := unmatched s; updated := updated s |}.

Definition set_snapshotData (d : gmap string value) (s : SnapshotState) :=
  {| _counters := _counters s; _dirty := _dirty s; _index := _index s;
     _updateSnapshot := _updateSnapshot s; _snapshotData := d;
     _snapshotPath := _snapshotPath s; _inlineSnapshots := _inlineSnapshots s;
     _uncheckedKeys := _uncheckedKeys s; _prettierPath := _prettierPath s;
     added := added s; expand := expand s; matched := matched s;
     unmatched := unmatched s; updated := updated s |}.

Definition set_inlineSnapshots (l : list InlineSnapshot) (s : SnapshotState) :=
  {| _counters := _counters s; _dirty := _dirty s; _index := _index s;
     _updateSnapshot := _updateSnapshot s; _snapshotData := _snapshotData s;
     _snapshotPath := _snapshotPath s; _inlineSnapshots := l;
     _uncheckedKeys := _uncheckedKeys s; _prettierPath := _prettierPath s;
     added := added s; expand := expand s; matched := matched s;
     unmatched := unmatched s; updated := updated s |}.

Definition set_uncheckedKeys (u : gset string) (s : SnapshotState) :=
  {| _counters := _counters s; _dirty := _dirty s; _index := _index s;
     _updateSnapshot := _updateSnapshot s; _snapshotData := _snapshotData s;
     _snapshotPath := _snapshotPath s; _inlineSnapshots := _inlineSnapshots s;
     _uncheckedKeys := u; _prettierPath := _prettierPath s;
     added := added s; expand := expand s; matched := matched s;
     unmatched := unmatched s; updated := updated s |}.

(** The four running totals at once. *)
Definition set_totals (a m un up : nat) (s : SnapshotState) :=
  {| _counters := _counters s; _dirty := _dirty s; _index := _index s;
     _updateSnapshot := _updateSnapshot s; _snapshotData := _snapshotData s;
     _snapshotPath := _snapshotPath s; _inlineSnapshots := _inlineSnapshots s;
     _uncheckedKeys := _uncheckedKeys s; _prettierPath := _prettierPath s;
     added := a; expand := expand s; matched := m;
     unmatched := un; updated := up |}.

Definition incr_added (s : SnapshotState) :=
  set_totals (added s + 1) (matched s) (unmatched s) (updated s) s.
Definition incr_matched (s : SnapshotState) :=
  set_totals (added s) (matched s + 1) (unmatched s) (updated s) s.
Definition incr_unmatched (s : SnapshotState) :=
  set_totals (added s) (matched s) (unmatched s + 1) (updated s) s.
Definition incr_updated (s : SnapshotState) :=
  set_totals (added s) (matched s) (unmatched s) (updated s + 1) s.

(** [this._snapshotData[key]]: [undefined] for a missing key. *)
Definition data_get (data : gmap string value) (key : string) : value :=
  default VUndefined (data !! key).

Definition is_undefined (v : value) : bool :=
  match v with VUndefined => true | _ => false end.

(** [!key] for an optional string: missing or empty. *)
Definition key_missing (key : option string) : bool :=
  match key with
  | None => true
  | Some k => String.eqb k EmptyString
  end.

(** What [save] asks of the outside world, in call order. *)
Inductive io_event :=
| SaveSnapshotFile (data : gmap string value) (path : string)
| SaveInlineSnapshots (snapshots : list InlineSnapshot) (prettier : string)
| UnlinkSync (path : string).

(** A write is a call that persists the companion file or hands inline
    records to the patcher (which rewrites source files). *)
Definition is_write (e : io_event) : bool :=
  match e with
  | SaveSnapshotFile _ _ | SaveInlineSnapshots _ _ => true
  | UnlinkSync _ => false
  end.

(** [fs.existsSync(path)] of the companion file after an event. *)
Definition exists_after_event (existed : bool) (e : io_event) : bool :=
  match e with
  | SaveSnapshotFile _ _ => true
  | SaveInlineSnapshots _ _ => existed
  | UnlinkSync _ => false
  end.

Definition exists_after (existed : bool) (es : list io_event) : bool :=
  fold_left exists_after_event es existed.

(** The helpers of [utils.ts] and [jest-message-util] that the class
    calls.  [topFrame] stands for
    [getTopFrame(getStackTraceLines(removeLinesBeforeExternalMatcherTrap(stack)))]
    on the stack of the supplied error ([None]: the [new Error()] made on
    the spot).  [removeExtraLineBreaks] is declared for a string;
    [removeExtraLineBreaks_other] is what it does when [match] hands it
    a value that is not a string (the cast [expected as string] checks
    nothing): it may return a value or throw, as it does with a
    [TypeError] on [undefined] and on [null]. *)
Record Utils := {
  serialize : value -> string;
  addExtraLineBreaks : string -> string;
  removeExtraLineBreaks : string -> string;
  removeExtraLineBreaks_other : value -> outcome value;
  testNameToKey : string -> nat -> string;
  keyToTestName : string -> string;
  topFrame : option string -> option Frame;
}.

(** [new SnapshotState(snapshotPath, options)], given what
    [getSnapshotData] read from the companion file. *)
Definition new_state (snapshotPath prettierPath : string)
    (updateSnapshot : SnapshotUpdateState) (expand_opt : bool)
    (data : gmap string value) (dirty : bool) : SnapshotState :=
  {| _counters := ∅; _dirty := dirty; _index := 0;
     _updateSnapshot := updateSnapshot; _snapshotData := data;
     _snapshotPath := snapshotPath; _inlineSnapshots := [];
     _uncheckedKeys := dom data; _prettierPath := prettierPath;
     added := 0; expand := expand_opt; matched := 0; unmatched := 0;
     updated := 0 |}.

(** [clear]: [_snapshotData = _initialData] re-assigns the mapping to
    itself (the two fields alias one object). *)
Definition clear (s : SnapshotState) : SnapshotState :=
  set_totals 0 0 0 0
    (set_index 0 (set_counters ∅ (set_inlineSnapshots [] s))).

(** [save], given what the outside world answers: what it returns or
    throws, and the calls it has made.  [existsSync] is
    [fs.existsSync(this._snapshotPath)]; [fileError] is the error that
    [saveSnapshotFile] throws, if it throws; [fs.unlinkSync] is taken to
    return.

    The call [saveInlineSnapshots(this._inlineSnapshots,
    this._prettierPath)] hands two arguments to a function of three
    ([inline_snapshots.ts]): [prettier] is the path, a string, and
    [babelTraverse] is [undefined].  The queue is not empty there, so
    there is a first file, and for it the call throws: in
    [semver.gte(prettier.version, ...)] on the version of a string when
    the path is not empty, and otherwise in reading or parsing the file
    or at [babelTraverse(ast, ...)].  So the call does not return and
    [status.saved = true] is not reached; [patcherError] is the error it
    throws. *)
Definition save (s : SnapshotState) (existsSync : bool)
    (fileError : option string) (patcherError : string)
  : outcome SaveStatus * list io_event :=
  let hasExternalSnapshots := size (_snapshotData s) in
  let hasInlineSnapshots := length (_inlineSnapshots s) in
  let isEmpty :=
    Nat.eqb hasExternalSnapshots 0 && Nat.eqb hasInlineSnapshots 0 in
  if (_dirty s || negb (Nat.eqb (size (_uncheckedKeys s)) 0)) && negb isEmpty
  then
    let written :=
      if negb (Nat.eqb hasExternalSnapshots 0)
      then [SaveSnapshotFile (_snapshotData s) (_snapshotPath s)] else [] in
    match (if negb (Nat.eqb hasExternalSnapshots 0) then fileError
           else None) with
    | Some m => (Thrown m, written)
    | None =>
        if negb (Nat.eqb hasInlineSnapshots 0)
        then
          (Thrown patcherError,
           written
             ++ [SaveInlineSnapshots (_inlineSnapshots s) (_prettierPath s)])
        else (Returned {| deleted := false; saved := true |}, written)
    end
  else if Nat.eqb hasExternalSnapshots 0 && existsSync then
    (Returned {| deleted := true; saved := false |},
     if is_all (_updateSnapshot s) then [UnlinkSync (_snapshotPath s)]
     else [])
  else (Returned {| deleted := false; saved := false |}, []).

Definition getUncheckedCount (s : SnapshotState) : nat :=
  size (_uncheckedKeys s).

Definition getUncheckedKeys (s : SnapshotState) : list string :=
  elements (_uncheckedKeys s).

(** [removeUncheckedKeys]. *)
Definition removeUncheckedKeys (s : SnapshotState) : SnapshotState :=
  if is_all (_updateSnapshot s) && negb (Nat.eqb (size (_uncheckedKeys s)) 0)
  then
    set_uncheckedKeys ∅
      (set_snapshotData
         (set_fold (fun key data => delete key data) (_snapshotData s)
                   (_uncheckedKeys s))
         (set_dirty true s))
  else s.

Section Operations.
Variable U : Utils.

(** [markSnapshotsAsCheckedForTest]. *)
Definition markSnapshotsAsCheckedForTest (name : string)
    (s : SnapshotState) : SnapshotState :=
  set_uncheckedKeys
    (filter (fun uncheckedKey => keyToTestName U uncheckedKey <> name)
            (_uncheckedKeys s)) s.

(** [_addSnapshot]: the dirty flag is set first, then an inline record
    is queued (it throws when no frame can be inferred) or the mapping
    is written. *)
Definition _addSnapshot (k : string) (v : value)
    (is_serialized is_inline : bool) (err : option string)
    (s : SnapshotState) : outcome unit * SnapshotState :=
  let s := set_dirty true s in
  if is_inline then
    match topFrame U err with
    | None =>
        (Thrown "Jest: Couldn't infer stack frame for inline snapshot.", s)
    | Some f =>
        (Returned tt,
         set_inlineSnapshots
           (_inlineSnapshots s
              ++ [{| frame := f; serialized := is_serialized;
                     snapshot := v |}]) s)
    end
  else (Returned tt, set_snapshotData (<[k := v]> (_snapshotData s)) s).

(** [removeExtraLineBreaks(x as string)] on the value [x] itself: the
    helper on the text of a string, and on another value whatever the
    helper does with it. *)
Definition removeExtraLineBreaks_of (v : value) : outcome value :=
  match v with
  | VString t => Returned (VString (removeExtraLineBreaks U t))
  | _ => removeExtraLineBreaks_other U v
  end.

(** The head of [match] and [fail]: the occurrence counter of the test
    is incremented, [count] is its new value. *)
Definition count_call (name : string) (s : SnapshotState)
  : nat * SnapshotState :=
  let n := default 0 (_counters s !! name) + 1 in
  (n, set_counters (<[name := n]> (_counters s)) s).

(** [if (!key) key = testNameToKey(testName, count)]. *)
Definition resolve_key (name : string) (k0 : option string) (n : nat)
  : string :=
  if key_missing k0 then testNameToKey U name n
  else default EmptyString k0.

(** [addExtraLineBreaks(serialize(received))]. *)
Definition serialized_text (o : SnapshotMatchOptions) : string :=
  addExtraLineBreaks U (serialize U (received o)).

(** [value]: what is compared and, on a write, stored. *)
Definition compared_value (o : SnapshotMatchOptions) : value :=
  if opt_serialized o then VString (serialized_text o) else received o.

(** The tail of [match], from the comment on when to write snapshots
    on: the write-or-report decision.  [n], [k], [v], [e], [p] and
    [has] are [count], [key], [value], [expected], [pass] and
    [hasSnapshot] as computed above it.  The report of a mismatch is
    built after [this.unmatched++], field by field; when
    [removeExtraLineBreaks] throws on the way the call throws with
    [unmatched] already counted. *)
Definition write_or_report (o : SnapshotMatchOptions) (existsSync : bool)
    (n : nat) (k : string) (v e : value) (p has : bool)
    (s3 : SnapshotState) : outcome SnapshotReturnOptions * SnapshotState :=
  let valueSerialized := serialized_text o in
  let eSerialized := addExtraLineBreaks U (serialize U e) in
  let snapshotIsPersisted := isInline o || existsSync in
  let defaultExpected :=
    if opt_serialized o then VString EmptyString
    else if has then e else VUndefined in
  let defaultActual :=
    if opt_serialized o then VString EmptyString
    else if has then received o else VUndefined in
  let u := _updateSnapshot s3 in
  let passing :=
    {| actual := defaultActual; actualSerialized := EmptyString;
       count := n; expected := defaultExpected;
       expectedSerialized := EmptyString; hasSnapshot := has;
       ret_key := k; pass := true |} in
  if (has && is_all u)
     || ((negb has || negb snapshotIsPersisted) && (is_new u || is_all u))
  then
    let '(r, s4) :=
      if is_all u then
        if negb p then
          let s' := if has then incr_updated s3 else incr_added s3 in
          _addSnapshot k v (opt_serialized o) (isInline o) (error o) s'
        else (Returned tt, incr_matched s3)
      else
        let '(r, s') :=
          _addSnapshot k v (opt_serialized o) (isInline o) (error o) s3 in
        match r with
        | Returned _ => (Returned tt, incr_added s')
        | Thrown m => (Thrown m, s')
        end in
    match r with
    | Returned _ => (Returned passing, s4)
    | Thrown m => (Thrown m, s4)
    end
  else if negb p then
    let s4 := incr_unmatched s3 in
    match (if opt_serialized o then removeExtraLineBreaks_of v
           else Returned (received o)) with
    | Thrown m => (Thrown m, s4)
    | Returned reportedActual =>
        match (if has
               then if opt_serialized o
                    then removeExtraLineBreaks_of e else Returned e
               else Returned VUndefined) with
        | Thrown m => (Thrown m, s4)
        | Returned reportedExpected =>
            (Returned
               {| actual := reportedActual;
                  actualSerialized := removeExtraLineBreaks U valueSerialized;
                  count := n;
                  expected := reportedExpected;
                  expectedSerialized := eSerialized; hasSnapshot := has;
                  ret_key := k; pass := false |},
             s4)
        end
    end
  else (Returned passing, incr_matched s3).

(** [match], given [fs.existsSync(this._snapshotPath)]: the counter
    and the key, the unchecked set, [value], [expected], [pass],
    [hasSnapshot], the write-back of a passing external snapshot, and
    then the decision. *)
Definition match_ (o : SnapshotMatchOptions) (existsSync : bool)
    (s0 : SnapshotState) : outcome SnapshotReturnOptions * SnapshotState :=
  let '(n, s1) := count_call (testName o) s0 in
  let k := resolve_key (testName o) (key o) n in
  let s2 :=
    if negb (isInline o
             && negb (is_undefined (data_get (_snapshotData s1) k)))
    then set_uncheckedKeys (_uncheckedKeys s1 ∖ {[k]}) s1
    else s1 in
  let v := compared_value o in
  let e :=
    if isInline o then
      match inlineSnapshot o with
      | Some t => VString t
      | None => VUndefined
      end
    else data_get (_snapshotData s2) k in
  let p :=
    if opt_serialized o then strict_equals e v
    else compare (received o) e in
  let has :=
    if isInline o then hasInlineSnapshot o
    else bool_decide (k ∈ dom (_snapshotData s2)) in
  let s3 :=
    if p && negb (isInline o)
    then set_snapshotData (<[k := v]> (_snapshotData s2)) s2
    else s2 in
  write_or_report o existsSync n k v e p has s3.

(** [fail]; [_received] is not used. *)
Definition fail (name : string) (_received : value) (k0 : option string)
    (s0 : SnapshotState) : string * SnapshotState :=
  let '(n, s1) := count_call name s0 in
  let k := resolve_key name k0 n in
  let s2 := set_uncheckedKeys (_uncheckedKeys s1 ∖ {[k]}) s1 in
  (k, incr_unmatched s2).

(** A run: [match] calls in sequence, each given whether the companion
    file exists; it stops at the first call that throws. *)
Fixpoint run (calls : list (SnapshotMatchOptions * bool))
    (s : SnapshotState) : outcome unit * SnapshotState :=
  match calls with
  | [] => (Returned tt, s)
  | (o, existsSync) :: rest =>
      match match_ o existsSync s with
      | (Returned _, s') => run rest s'
      | (Thrown m, s') => (Thrown m, s')
      end
  end.
End Operations.

(** *** The stages of [match], named

    What [match] has computed when it reaches the write-or-report
    decision, as functions of the call and of the state it started
    from. *)
Section Stages.
Variable U : Utils.

Definition call_count (o : SnapshotMatchOptions) (s : SnapshotState) : nat :=
  default 0 (_counters s !! testName o) + 1.

Definition call_key (o : SnapshotMatchOptions) (s : SnapshotState) : string :=
  resolve_key U (testName o) (key o) (call_count o s).

Definition call_expected (o : SnapshotMatchOptions) (s : SnapshotState)
  : value :=
  if isInline o then
    match inlineSnapshot o with
    | Some t => VString t
    | None => VUndefined
    end
  else data_get (_snapshotData s) (call_key o s).

Definition call_pass (o : SnapshotMatchOptions) (s : SnapshotState) : bool :=
  if opt_serialized o
  then strict_equals (call_expected o s) (compared_value U o)
  else compare (received o) (call_expected o s).

Definition call_hasSnapshot (o : SnapshotMatchOptions) (s : SnapshotState)
  : bool :=
  if isInline o then hasInlineSnapshot o
  else bool_decide (call_key o s ∈ dom (_snapshotData s)).

(** The state at the decision: counter incremented, key dropped from
    the unchecked set, passing external value written back. *)
Definition before_decision (o : SnapshotMatchOptions) (s : SnapshotState)
  : SnapshotState :=
  {| _counters := <[testName o := call_count o s]> (_counters s);
     _dirty := _dirty s; _index := _index s;
     _updateSnapshot := _updateSnapshot s;
     _snapshotData :=
       if call_pass o s && negb (isInline o)
       then <[call_key o s := compared_value U o]> (_snapshotData s)
       else _snapshotData s;
     _snapshotPath := _snapshotPath s;
     _inlineSnapshots := _inlineSnapshots s;
     _uncheckedKeys :=
       if negb (isInline o
                && negb (is_undefined
                           (data_get (_snapshotData s) (call_key o s))))
       then _uncheckedKeys s ∖ {[call_key o s]}
       else _uncheckedKeys s;
     _prettierPath := _prettierPath s;
     added := added s; expand := expand s; matched := matched s;
     unmatched := unmatched s; updated := updated s |}.
End Stages.

(** *** The running totals *)

Definition totals (s : SnapshotState) : nat * nat * nat * nat :=
  (added s, matched s, unmatched s, updated s).

(** Exactly one of the four totals went up, by one. *)
Definition one_total_incremented (t t' : nat * nat * nat * nat) : Prop :=
  let '(a, m, un, up) := t in
  t' = (a + 1, m, un, up) \/ t' = (a, m + 1, un, up)
  \/ t' = (a, m, un + 1, up) \/ t' = (a, m, un, up + 1).

Definition no_total_decremented (t t' : nat * nat * nat * nat) : Prop :=
  let '(a, m, un, up) := t in
  let '(a', m', un', up') := t' in
  a <= a' /\ m <= m' /\ un <= un' /\ up <= up'.

End State.

(* ===================================================================== *)
(** ** The inline-snapshot patcher ([inline_snapshots.ts]) *)
(* ===================================================================== *)

Module Patcher.

(** The message of the error for two records on one call. *)
Definition multiple_message : string :=
  "Jest: Multiple inline snapshots for the same call are not supported.".

(** The message of the error for a record that no call was found for. *)
Definition locate_message : string :=
  "Jest: Couldn't locate all inline snapshots.".

(** An argument node of a call, by its [type]. *)
Inductive Argument :=
| TemplateLiteral (raw : string)
| OtherArgument (type : string).

Record Position := { pos_line : Z; pos_column : Z }.

(** The callee of a call: a [MemberExpression] with the [type] of its
    [property] and where the property starts, or another kind of node. *)
Inductive Callee :=
| MemberExpression (property_type : string) (property_loc_start : Position)
| OtherCallee (type : string).

(** A [CallExpression] node.  [start] and [end] are text offsets, present
    when they are numbers. *)
Record CallExpression := {
  callee : Callee;
  arguments : list Argument;
  start : option nat;
  end_ : option nat;
}.

(** [InlineSnapshot] of this file: the snapshot text, the frame, and the
    node the traversal binds. *)
Record InlineSnapshot := {
  snapshot : string;
  frame : Frame;
  node : option CallExpression;
}.

(** The parse/traverse/print engine and [escapeBacktickString].  The
    traversal hands the visitor the call expressions of the file in
    visiting order, which is how a parsed file is represented;
    [generate n] is [generate(n).code]. *)
Record Engine := {
  parse : string -> string -> outcome (list CallExpression);
  generate : CallExpression -> string;
  escapeBacktickString : string -> string;
}.

(** *** Grouping *)

(** The own property [key] of the object that [groupSnapshotsBy]
    builds, an object literal. *)
Fixpoint group_lookup {A} (key : string) (object : list (string * list A))
  : option (list A) :=
  match object with
  | [] => None
  | (k, g) :: rest => if String.eqb k key then Some g else group_lookup key rest
  end.

(** [{...object, [key]: group}]: an existing key keeps its place, a new
    one goes last. *)
Fixpoint group_set {A} (key : string) (group : list A)
    (object : list (string * list A)) : list (string * list A) :=
  match object with
  | [] => [(key, group)]
  | (k, g) :: rest =>
      if String.eqb k key then (k, group) :: rest
      else (k, g) :: group_set key group rest
  end.

(** The properties that an object literal inherits from
    [Object.prototype]: [object[key]] finds them when the object has no
    own property [key].  Their values are functions and, for
    [__proto__], the prototype itself: none is falsy, none has a
    [concat] method. *)
Definition Object_prototype_keys : list string :=
  ["constructor"; "__defineGetter__"; "__defineSetter__"; "hasOwnProperty";
   "__lookupGetter__"; "__lookupSetter__"; "isPrototypeOf";
   "propertyIsEnumerable"; "toString"; "valueOf"; "__proto__";
   "toLocaleString"].

Definition inherited (key : string) : bool :=
  existsb (String.eqb key) Object_prototype_keys.

(** Whether a key has a colon, as the keys made of a line and a column
    have. *)
Definition has_colon (s : string) : bool :=
  existsb (Ascii.eqb ":"%char) (list_ascii_of_string s).

(** The error of calling the [concat] that is not there (in the words
    of V8). *)
Definition concat_message : string :=
  "TypeError: (object[key] || []).concat is not a function".

(** The function [groupSnapshotsBy] reduces with:
    [(object[key] || []).concat(inlineSnapshot)] is the group of the
    own property with the record appended, throws on an inherited
    property, and is the record alone otherwise.  An error ends the
    reduction. *)
Definition group_step {A} (createKey : A -> string)
    (object : outcome (list (string * list A))) (inlineSnapshot : A)
  : outcome (list (string * list A)) :=
  match object with
  | Thrown m => Thrown m
  | Returned object =>
      let key := createKey inlineSnapshot in
      match group_lookup key object with
      | Some group =>
          Returned (group_set key (group ++ [inlineSnapshot]) object)
      | None =>
          if inherited key then Thrown concat_message
          else Returned (group_set key [inlineSnapshot] object)
      end
  end.

(** [groupSnapshotsBy(createKey)(snapshots)], a left-to-right [reduce]
    from [{}]. *)
Definition groupSnapshotsBy {A} (createKey : A -> string) (snapshots : list A)
  : outcome (list (string * list A)) :=
  fold_left (group_step createKey) snapshots (Returned []).

(** [Object.keys] lists the keys that are array indices first, in
    ascending order, and then the other keys as they were created.  An
    array index is the decimal form, without a leading zero, of an
    integer below 2^32 - 1. *)
Definition digit_of (c : ascii) : option N :=
  let n := N_of_ascii c in
  if ((48 <=? n) && (n <=? 57))%N then Some (n - 48)%N else None.

Fixpoint digits_value (acc : N) (s : string) : option N :=
  match s with
  | EmptyString => Some acc
  | String c s' =>
      match digit_of c with
      | Some d => digits_value (10 * acc + d) s'
      | None => None
      end
  end.

Definition array_index (key : string) : option N :=
  match key with
  | EmptyString => None
  | String c rest =>
      if Ascii.eqb c "0" && negb (String.eqb rest EmptyString) then None
      else
        match digits_value 0 key with
        | Some n => if (n <? 4294967295)%N then Some n else None
        | None => None
        end
  end.

Fixpoint insert_index {B} (n : N) (entry : B) (sorted : list (N * B))
  : list (N * B) :=
  match sorted with
  | [] => [(n, entry)]
  | (m, e) :: rest =>
      if (n <? m)%N then (n, entry) :: sorted
      else (m, e) :: insert_index n entry rest
  end.

Definition index_entries {B} (object : list (string * B))
  : list (N * (string * B)) :=
  fold_right
    (fun entry sorted =>
       match array_index entry.1 with
       | Some n => insert_index n entry sorted
       | None => sorted
       end)
    [] object.

(** The entries of an object in [Object.keys] order. *)
Definition Object_entries {B} (object : list (string * B))
  : list (string * B) :=
  map snd (index_entries object)
    ++ List.filter
         (fun entry =>
            match array_index entry.1 with Some _ => false | None => true end)
         object.

(** The template [`${line}:${column - 1}`], or the empty string when a
    coordinate is missing. *)
Definition frame_key (f : Frame) : string :=
  match line f, column f with
  | Some l, Some c => pretty l +:+ ":" +:+ pretty (c - 1)%Z
  | _, _ => EmptyString
  end.

(** The template [`${line}:${column}`] of a call's property. *)
Definition position_key (p : Position) : string :=
  pretty (pos_line p) +:+ ":" +:+ pretty (pos_column p).

(** The records are objects shared between the [snapshots] array and the
    groups: a group holds the indices of its records in [snapshots]. *)
Definition groupSnapshotsByFrame (snapshots : list InlineSnapshot)
  : outcome (list (string * list nat)) :=
  groupSnapshotsBy
    (fun i => default EmptyString (frame_key <$> (frame <$> snapshots !! i)))
    (seq 0 (length snapshots)).

Definition groupSnapshotsByFile (snapshots : list InlineSnapshot)
  : outcome (list (string * list InlineSnapshot)) :=
  groupSnapshotsBy (fun r => file (frame r)) snapshots.

(** *** Binding records to call expressions *)

Definition is_TemplateLiteral (a : Argument) : bool :=
  match a with TemplateLiteral _ => true | OtherArgument _ => false end.

(** [args.findIndex(({type}) => type === 'TemplateLiteral')]; [None] is
    the result [-1]. *)
Fixpoint findIndex_TemplateLiteral (args : list Argument) : option nat :=
  match args with
  | [] => None
  | a :: rest =>
      if is_TemplateLiteral a then Some 0
      else S <$> findIndex_TemplateLiteral rest
  end.

Definition set_node (n : CallExpression) (r : InlineSnapshot)
  : InlineSnapshot :=
  {| snapshot := snapshot r; frame := frame r; node := Some n |}.

Definition set_arguments (args : list Argument) (n : CallExpression)
  : CallExpression :=
  {| callee := callee n; arguments := args; start := start n;
     end_ := end_ n |}.

(** What the visitor closes over and mutates: the records (their [node]
    fields) and the set [remainingSnapshots] of snapshot texts. *)
Record traversal := {
  records : list InlineSnapshot;
  remainingSnapshots : gset string;
}.

(** [s.slice(0, n)] and [s.slice(n)] for an offset [n]. *)
Fixpoint slice_to (n : nat) (s : string) : string :=
  match n, s with
  | S n', String c s' => String c (slice_to n' s')
  | _, _ => EmptyString
  end.

Fixpoint slice_from (n : nat) (s : string) : string :=
  match n, s with
  | S n', String _ s' => slice_from n' s'
  | _, _ => s
  end.

Section Patching.
Variable E : Engine.

(** The [CallExpression] visitor of [traverseAst].  The bound node is
    the node object itself, so the record sees the arguments as they
    are after the replacement. *)
Definition visitCallExpression (groupedSnapshots : list (string * list nat))
    (n : CallExpression) (t : traversal)
  : outcome (CallExpression * traversal) :=
  match callee n with
  | OtherCallee _ => Returned (n, t)
  | MemberExpression property_type p =>
      if negb (String.eqb property_type "Identifier") then Returned (n, t)
      else
        match group_lookup (position_key p) groupedSnapshots with
        | None => Returned (n, t)
        | Some snapshotsForFrame =>
            if Nat.ltb 1 (length snapshotsForFrame) then
              Thrown multiple_message
            else
              let args := arguments n in
              let snapshotIndex := findIndex_TemplateLiteral args in
              let texts :=
                omap (fun i => snapshot <$> records t !! i)
                     snapshotsForFrame in
              let values :=
                map (fun text =>
                       TemplateLiteral (escapeBacktickString E text))
                    texts in
              match values with
              | [] => Returned (n, t)
              | replacementNode :: _ =>
                  let n' :=
                    set_arguments
                      match snapshotIndex with
                      | Some i => <[i := replacementNode]> args
                      | None => args ++ [replacementNode]
                      end n in
                  Returned
                    (n',
                     {| records :=
                          fold_left
                            (fun rs i => alter (set_node n') i rs)
                            snapshotsForFrame (records t);
                        remainingSnapshots :=
                          remainingSnapshots t ∖ list_to_set texts |})
              end
        end
  end.

(** The traversal: the visitor on every call expression in visiting
    order, up to the first throw. *)
Fixpoint traverse_calls (groupedSnapshots : list (string * list nat))
    (ast : list CallExpression) (t : traversal)
  : outcome (list CallExpression * traversal) :=
  match ast with
  | [] => Returned ([], t)
  | n :: rest =>
      match visitCallExpression groupedSnapshots n t with
      | Thrown m => Thrown m
      | Returned (n', t') =>
          match traverse_calls groupedSnapshots rest t' with
          | Thrown m => Thrown m
          | Returned (rest', t'') => Returned (n' :: rest', t'')
          end
      end
  end.

(** [traverseAst]: the records and the tree as the traversal leaves
    them, or the error thrown. *)
Definition traverseAst (snapshots : list InlineSnapshot)
    (ast : list CallExpression)
  : outcome (list InlineSnapshot * list CallExpression) :=
  match groupSnapshotsByFrame snapshots with
  | Thrown m => Thrown m
  | Returned groupedSnapshots =>
      let remaining : gset string := list_to_set (map snapshot snapshots) in
      match traverse_calls groupedSnapshots ast
              {| records := snapshots; remainingSnapshots := remaining |} with
      | Thrown m => Thrown m
      | Returned (ast', t) =>
          if negb (Nat.eqb (size (remainingSnapshots t)) 0) then
            Thrown locate_message
          else Returned (records t, ast')
      end
  end.

(** One step of the [reduceRight] in [saveSnapshotsForFile]. *)
Definition substitute (sourceSoFar : string) (nextSnapshot : InlineSnapshot)
  : outcome string :=
  match node nextSnapshot with
  | None => Thrown "Jest: no snapshot insert location found"
  | Some n =>
      match start n, end_ n with
      | Some a, Some b =>
          Returned (slice_to a sourceSoFar +:+ generate E n
                      +:+ slice_from b sourceSoFar)
      | _, _ => Thrown "Jest: no snapshot insert location found"
      end
  end.

(** [snapshots.reduceRight(..., sourceFile)]: the last record first. *)
Fixpoint substitute_all (snapshots : list InlineSnapshot)
    (sourceFile : string) : outcome string :=
  match snapshots with
  | [] => Returned sourceFile
  | r :: rest =>
      match substitute_all rest sourceFile with
      | Thrown m => Thrown m
      | Returned sourceSoFar => substitute sourceSoFar r
      end
  end.

(** [saveSnapshotsForFile] on a file system (path to text).  The only
    write is the last statement. *)
Definition saveSnapshotsForFile (snapshots : list InlineSnapshot)
    (sourceFilePath : string) (fs : gmap string string)
  : outcome unit * gmap string string :=
  match fs !! sourceFilePath with
  | None => (Thrown "ENOENT: no such file or directory", fs)
  | Some sourceFile =>
      match parse E sourceFilePath sourceFile with
      | Thrown m => (Thrown m, fs)
      | Returned ast =>
          match traverseAst snapshots ast with
          | Thrown m => (Thrown m, fs)
          | Returned (bound, _) =>
              match substitute_all bound sourceFile with
              | Thrown m => (Thrown m, fs)
              | Returned newSourceFile =>
                  if negb (String.eqb newSourceFile sourceFile)
                  then (Returned tt, <[sourceFilePath := newSourceFile]> fs)
                  else (Returned tt, fs)
              end
          end
      end
  end.

(** [saveInlineSnapshots], called with a traversal and with a prettier
    that is absent or has a version: file by file in [Object.keys]
    order, up to the first file that throws. *)
Fixpoint save_files (files : list (string * list InlineSnapshot))
    (fs : gmap string string) : outcome unit * gmap string string :=
  match files with
  | [] => (Returned tt, fs)
  | (sourceFilePath, group) :: rest =>
      match saveSnapshotsForFile group sourceFilePath fs with
      | (Thrown m, fs') => (Thrown m, fs')
      | (Returned _, fs') => save_files rest fs'
      end
  end.

Definition saveInlineSnapshots (snapshots : list InlineSnapshot)
    (fs : gmap string string) : outcome unit * gmap string string :=
  match groupSnapshotsByFile snapshots with
  | Thrown m => (Thrown m, fs)
  | Returned snapshotsByFile => save_files (Object_entries snapshotsByFile) fs
  end.
End Patching.

(** What the traversal keeps true: the records keep their texts, and a
    text is in [remainingSnapshots] exactly when it is the text of a
    pending record and of no bound one. *)
Definition remaining_invariant (snapshots : list InlineSnapshot)
    (t : traversal) : Prop :=
  (forall j, snapshot <$> records t !! j = snapshot <$> snapshots !! j)
  /\ forall text,
      text ∈ remainingSnapshots t <->
      text ∈ map snapshot snapshots
      /\ forall j r, records t !! j = Some r -> is_Some (node r) ->
                     snapshot r <> text.

(** The record resolves to the call whose property starts at [p]: the
    frame has the line of [p] and, columns of a frame being counted from
    1, the column after that of [p]. *)
Definition frame_at (r : InlineSnapshot) (p : Position) : Prop :=
  line (frame r) = Some (pos_line p)
  /\ column (frame r) = Some (pos_column p + 1)%Z.

End Patcher.

(* ===================================================================== *)
(** ** Concrete values, states, calls and files *)
(* ===================================================================== *)

Module JsSamples.
Import Js.

(** The number 1 as a binary64 value. *)
Definition one : spec_float := S754_finite false 4503599627370496 (-52).

(** A record holding NaN, a function, a symbol and a sequence. *)
Definition sample_record : value :=
  VObject 1 Plain
    [("n", VNumber S754_nan); ("f", VFunction 2);
     ("s", VSymbol 0 (Some "tag"));
     ("xs", VObject 3 Array [("0", VNull); ("1", VString "a")])].

(** The record [{a: 1}] allocated at location [l]. *)
Definition record_a1 (l : loc) : value := VObject l Plain [("a", VNumber one)].

End JsSamples.

Module LiteralSamples.
Import Literal.

(** [t.identifier] on the match array as [@babel/types] answers it: the
    builder checks the type of its argument and throws. *)
Definition identifier_throws (name : RegExpExecArray)
  : outcome GeneratedAst :=
  Thrown "TypeError: Property name expected type of string but got array".

End LiteralSamples.

Module StateSamples.
Import Js State.

(** Modelled from the spec: [testNameToKey] of utils.ts, which is not
    among the sources; a key is the test name, a space and the count. *)
Definition testNameToKey_spec (name : string) (n : nat) : string :=
  name +:+ " " +:+ pretty n.

(** The text after the digits at the head of [s]. *)
Fixpoint drop_digits (s : string) : string :=
  match s with
  | String c s' =>
      if ((48 <=? N_of_ascii c) && (N_of_ascii c <=? 57))%N
      then drop_digits s' else s
  | EmptyString => EmptyString
  end.

(** Modelled from the spec: [keyToTestName] of utils.ts, which is not
    among the sources; the test name of a key is the key without its
    last space and the count after it. *)
Definition keyToTestName_spec (key : string) : string :=
  let reversed := String.rev key in
  match drop_digits reversed with
  | String " " name =>
      if String.eqb (drop_digits reversed) reversed then key
      else String.rev name
  | _ => key
  end.

(** A text between double quotes. *)
Definition quoted (s : string) : string :=
  String "034"%char (s +:+ String "034"%char EmptyString).

(** Modelled from the spec: [serialize] of utils.ts, which is not among
    the sources; the spec asks for a canonical, deterministic text and
    fixes no format, this one prints the text of a string between quotes
    and the kind of any other value. *)
Definition serialize_spec (v : value) : string :=
  match v with
  | VUndefined => "undefined"
  | VNull => "null"
  | VBoolean true => "true"
  | VBoolean false => "false"
  | VNumber _ => "[number]"
  | VBigInt z => pretty z +:+ "n"
  | VString s => quoted s
  | VSymbol _ d => symbol_toString d
  | VFunction _ => "[Function]"
  | VObject _ Array _ => "Array []"
  | VObject _ Plain _ | VIterable _ _ _ => "Object {}"
  end.

(** Helpers to run the operations on concrete calls: no line breaks are
    added or removed, [removeExtraLineBreaks] throws on [undefined] and
    [null] (it reads the length of its argument) and gives any other
    value back, and the stack of a supplied error has a frame unless it
    is empty. *)
Definition sample_utils : Utils :=
  {| serialize := serialize_spec;
     addExtraLineBreaks := fun s => s;
     removeExtraLineBreaks := fun s => s;
     removeExtraLineBreaks_other := fun v =>
       match v with
       | VUndefined =>
           Thrown "TypeError: Cannot read property 'length' of undefined"
       | VNull => Thrown "TypeError: Cannot read property 'length' of null"
       | _ => Returned v
       end;
     testNameToKey := testNameToKey_spec;
     keyToTestName := keyToTestName_spec;
     topFrame := fun err =>
       match err with
       | Some EmptyString => None
       | _ => Some {| file := "a.test.js"; line := Some 3%Z;
                      column := Some 13%Z |}
       end |}.

(** The error of the patcher call in [save] when the path of prettier
    is not empty: [semver.gte] on the version of a string. *)
Definition sample_patcher_error : string :=
  "TypeError: Invalid Version: undefined".

(** A state just constructed from the mapping read from the companion
    file, not dirty. *)
Definition loaded (u : SnapshotUpdateState) (data : gmap string value)
  : SnapshotState :=
  new_state "a.test.js.snap" "prettier" u false data false.

(** An empty mapping with a companion file on disk, under policy
    [none]. *)
Definition stale_none : SnapshotState := loaded UpdateNone ∅.

(** A dirty state with one external snapshot. *)
Definition dirty_one : SnapshotState :=
  set_dirty true (loaded UpdateNew {["t 1" := VString "x"]}).

(** A companion file that holds a snapshot of another test, under
    policy [new]. *)
Definition persisted_other : SnapshotState :=
  loaded UpdateNew {["other 1" := VString "x"]}.

(** The first assertion of test [t], external and serialized. *)
Definition call_t : SnapshotMatchOptions :=
  {| testName := "t"; received := VString "v"; key := None;
     opt_serialized := true; inlineSnapshot := None; isInline := false;
     error := None; hasInlineSnapshot := false |}.

(** An inline assertion without a snapshot yet, whose error has an empty
    stack. *)
Definition inline_call_no_frame : SnapshotMatchOptions :=
  {| testName := "t"; received := VString "v"; key := None;
     opt_serialized := true; inlineSnapshot := None; isInline := true;
     error := Some EmptyString; hasInlineSnapshot := false |}.

(** The state after the first snapshot of [t] has been added. *)
Definition after_one_add : SnapshotState :=
  (match_ sample_utils call_t true persisted_other).2.



End StateSamples.

Module PatcherSamples.
Import Patcher.

(** A pending record with the text [x], for a frame of the test file of
    the examples. *)
Definition record_x (l c : Z) : InlineSnapshot :=
  {| snapshot := "x";
     frame := {| file := "a.test.js"; line := Some l; column := Some c |};
     node := None |}.

(** A call without arguments whose callee is a member expression with
    an identifier for property, at line [l], column [c], spanning the
    offsets [a] to [b]. *)
Definition call_at (l c : Z) (a b : nat) : CallExpression :=
  {| callee :=
       MemberExpression "Identifier" {| pos_line := l; pos_column := c |};
     arguments := []; start := Some a; end_ := Some b |}.

(** The test file of the examples: one assertion, whose property
    [toMatchInlineSnapshot] starts at line 1, column 10 and whose call
    spans the offsets 0 to 33; the traversal visits it and then the inner
    call [expect(1)]. *)
Definition sample_source : string := "expect(1).toMatchInlineSnapshot();".

(** The call expressions of that file, as the traversal visits them. *)
Definition sample_calls : list CallExpression :=
  [call_at 1 10 0 33;
   {| callee := OtherCallee "Identifier";
      arguments := [OtherArgument "NumericLiteral"];
      start := Some 0; end_ := Some 9 |}].

(** An engine for that file: it parses it (and nothing else), prints
    its call back with the arguments it has, and escapes nothing. *)
Definition print_argument (a : Argument) : string :=
  match a with
  | TemplateLiteral raw => String "096" (raw +:+ String "096" EmptyString)
  | OtherArgument _ => "1"
  end.

Definition sample_engine : Engine :=
  {| parse := fun _ text =>
       if String.eqb text sample_source then Returned sample_calls
       else Thrown "SyntaxError";
     generate := fun n =>
       "expect(1).toMatchInlineSnapshot("
         +:+ String.concat ", " (map print_argument (arguments n)) +:+ ")";
     escapeBacktickString := fun s => s |}.

(** A file system with the test file alone. *)
Definition sample_fs : gmap string string := {["a.test.js" := sample_source]}.

(** Two records for the one call of the sample file. *)
Definition same_call_records : list InlineSnapshot :=
  [record_x 1 11;
   {| snapshot := "y";
      frame := {| file := "a.test.js"; line := Some 1%Z; column := Some 11%Z |};
      node := None |}].

(** Two records with the same text, the second for a call that is not in
    the file. *)
Definition same_text_records : list InlineSnapshot :=
  [record_x 1 11; record_x 9 9].

End PatcherSamples.

(* ===================================================================== *)
(** ** Further definitions: invariants, reachable states, edits *)
(* ===================================================================== *)

Module StateMore.
Import Js State.

(** The message of the error [_addSnapshot] throws. *)
Definition frame_message : string :=
  "Jest: Couldn't infer stack frame for inline snapshot.".

(** Every unchecked key is a key of the mapping. *)
Definition unchecked_persisted (s : SnapshotState) : Prop :=
  _uncheckedKeys s ⊆ dom (_snapshotData s).

(** The keys the calls of a run resolve to, in call order (up to the
    first call that throws, if one does). *)
Fixpoint run_keys (U : Utils) (calls : list (SnapshotMatchOptions * bool))
    (s : SnapshotState) : list string :=
  match calls with
  | [] => []
  | (o, existsSync) :: rest =>
      call_key U o s ::
        match match_ U o existsSync s with
        | (Returned _, s') => run_keys U rest s'
        | (Thrown _, _) => []
        end
  end.

(** The states a test-file run goes through: the constructor's, and
    what the mutating methods make of them. *)
Inductive reachable (U : Utils) : SnapshotState -> Prop :=
| reach_new snapshotPath prettierPath u expand_opt data dirty :
    reachable U
      (new_state snapshotPath prettierPath u expand_opt data dirty)
| reach_match o existsSync s :
    reachable U s -> reachable U (match_ U o existsSync s).2
| reach_fail name _received k0 s :
    reachable U s -> reachable U (fail U name _received k0 s).2
| reach_mark name s :
    reachable U s -> reachable U (markSnapshotsAsCheckedForTest U name s)
| reach_remove s :
    reachable U s -> reachable U (removeUncheckedKeys s)
| reach_clear s :
    reachable U s -> reachable U (clear s).

(** Samples: a mapping with the snapshot of [t] under policy [all], an
    inline assertion whose frame can be inferred, and runs of [t]. *)
Definition all_loaded : SnapshotState :=
  StateSamples.loaded UpdateAll
    {["t 1" := VString "old"; "gone 1" := VString "x"]}.

Definition new_loaded : SnapshotState :=
  StateSamples.loaded UpdateNew
    {["t 1" := VString (StateSamples.quoted "v")]}.

(** A mapping that holds [null] under the key of [t], under policy
    [none]. *)
Definition null_loaded : SnapshotState :=
  StateSamples.loaded UpdateNone {["t 1" := VNull]}.

Definition inline_call : SnapshotMatchOptions :=
  {| testName := "t"; received := VString "v"; key := None;
     opt_serialized := true; inlineSnapshot := None; isInline := true;
     error := None; hasInlineSnapshot := false |}.

End StateMore.

Module LiteralMore.
Import Js Literal.

(** No code unit of the text is a line terminator. *)
Fixpoint on_one_line (s : string) : bool :=
  match s with
  | EmptyString => true
  | String c s' => negb (is_line_terminator c) && on_one_line s'
  end.

End LiteralMore.

Module PatcherMore.
Import Patcher.

(** The arguments of a call that are not template literals. *)
Definition other_arguments (args : list Argument) : list Argument :=
  filter (fun a => is_TemplateLiteral a = false) args.

(** What a visit may do to a call: the callee, the span and the
    arguments that are not template literals stay; there is at most one
    argument more, and none more when there was a template literal. *)
Definition template_edit (n n' : CallExpression) : Prop :=
  callee n' = callee n /\ start n' = start n /\ end_ n' = end_ n
  /\ other_arguments (arguments n') = other_arguments (arguments n)
  /\ (arguments n' = arguments n
      \/ length (arguments n') =
           (if existsb is_TemplateLiteral (arguments n)
            then length (arguments n)
            else S (length (arguments n)))).

(** A record and what a traversal that left the calls [ast'] made
    of it: the same snapshot text and frame, and a node, if one is
    bound, that is one of the calls of [ast'], has an identifier
    property at the position of the record's frame, and has the escaped
    text as a template literal among its arguments. *)
Definition bound_from (E : Engine) (ast' : list CallExpression)
    (r0 r : InlineSnapshot) : Prop :=
  snapshot r = snapshot r0 /\ frame r = frame r0
  /\ forall n, node r = Some n ->
       n ∈ ast'
       /\ (exists p, callee n = MemberExpression "Identifier" p
                     /\ position_key p = frame_key (frame r))
       /\ TemplateLiteral (escapeBacktickString E (snapshot r)) ∈ arguments n.

(** The records are bound to nodes whose spans lie in a text of [len]
    characters one after the other, from the offset [from] on. *)
Fixpoint spans_from (from len : nat) (snapshots : list InlineSnapshot)
  : Prop :=
  match snapshots with
  | [] => True
  | r :: rest =>
      exists n a b,
        node r = Some n /\ start n = Some a /\ end_ n = Some b
        /\ from <= a /\ a <= b /\ b <= len /\ spans_from b len rest
  end.

(** The text of [sourceFile] from the offset [from] on, with the span
    of each record's node replaced by the code generated for that node,
    assembled from left to right (the text is left as it is from the
    first record on that has no span). *)
Fixpoint splice (E : Engine) (from : nat) (sourceFile : string)
    (snapshots : list InlineSnapshot) : string :=
  match snapshots with
  | [] => slice_from from sourceFile
  | r :: rest =>
      match node r with
      | Some n =>
          match start n, end_ n with
          | Some a, Some b =>
              slice_to (a - from) (slice_from from sourceFile)
                +:+ generate E n +:+ splice E b sourceFile rest
          | _, _ => slice_from from sourceFile
          end
      | None => slice_from from sourceFile
      end
  end.

(** *** Indentation *)

(** [s.split('\n')]. *)
Fixpoint split_lines (s : string) : list string :=
  match s with
  | EmptyString => [EmptyString]
  | String c s' =>
      if Ascii.eqb c "010" then EmptyString :: split_lines s'
      else
        match split_lines s' with
        | line :: lines => String c line :: lines
        | [] => [String c EmptyString]
        end
  end.

(** [s.repeat(n)]. *)
Fixpoint string_repeat (s : string) (n : nat) : string :=
  match n with
  | 0 => EmptyString
  | S n' => s +:+ string_repeat s n'
  end.

(** [lines.join('\n')]. *)
Definition join_lines (lines : list string) : string :=
  String.concat (String "010" EmptyString) lines.

(** [indent], for a whole number [numIndents] of levels. *)
Definition indent (snapshot : string) (numIndents : nat)
    (indentation : string) : string :=
  let lines := split_lines snapshot in
  join_lines
    (imap
       (fun index line =>
          if Nat.eqb index 0 then line
          else if negb (Nat.eqb index (length lines - 1)) then
            if String.eqb line EmptyString then line
            else string_repeat indentation (numIndents + 1) +:+ line
          else string_repeat indentation numIndents +:+ line)
       lines).

End PatcherMore.

(* ===================================================================== *)
(** * Properties of the comparator *)
(* ===================================================================== *)

Module JsFacts.
Import Js JsSamples.

Lemma compare_loop_forallb expected props :
  (fix loop (ps : list (string * value)) : bool :=
     match ps with
     | [] => true
     | (key, v) :: ps' =>
         if negb (compare v (get expected key)) then false else loop ps'
     end) props
  = every_key_compares props expected.
Proof.
  induction props as [|[k v] ps IH]; [reflexivity|].
  cbn [every_key_compares forallb fst snd].
  destruct (compare v (get expected k)); cbn; [exact IH | reflexivity].
Qed.

Lemma compare_VObject l c props expected :
  compare (VObject l c props) expected
  = compare_deep (VObject l c props) expected.
Proof.
  unfold compare_deep. cbn [enum_props].
  rewrite <- compare_loop_forallb.
  cbn [compare typeof].
  destruct (js_type_eqb TObject (typeof expected)); cbn [negb andb]; [|done].
  destruct (truthy expected); cbn [negb andb]; [|done].
  match goal with |- (if negb ?b then _ else _) = _ => destruct b end;
    cbn [negb andb]; [|done].
  destruct (Nat.eqb _ _); cbn [negb andb]; done.
Qed.

Lemma compare_VIterable l items props expected :
  compare (VIterable l items props) expected
  = compare_deep (VIterable l items props) expected.
Proof.
  unfold compare_deep. cbn [enum_props].
  rewrite <- compare_loop_forallb.
  cbn [compare typeof].
  destruct (js_type_eqb TObject (typeof expected)); cbn [negb andb]; [|done].
  destruct (truthy expected); cbn [negb andb]; [|done].
  match goal with |- (if negb ?b then _ else _) = _ => destruct b end;
    cbn [negb andb]; [|done].
  destruct (Nat.eqb _ _); cbn [negb andb]; done.
Qed.

Lemma SFeqb_refl x : x <> S754_nan -> SFeqb x x = true.
Proof.
  intros Hx. unfold SFeqb.
  destruct x as [s|s| |s m e]; [| |done|]; cbn.
  - reflexivity.
  - by destruct s.
  - rewrite Z.compare_refl, Pos.compare_cont_refl. by destruct s.
Qed.

Lemma strict_equals_refl v : Number_isNaN v = false -> strict_equals v v = true.
Proof.
  destruct v as [| |b|x|z|s|i d|l|l c props|l items props]; cbn; intros H;
    try reflexivity.
  - by destruct b.
  - apply SFeqb_refl. by destruct x.
  - apply Z.eqb_refl.
  - apply String.eqb_refl.
  - apply Nat.eqb_refl.
  - apply Nat.eqb_refl.
  - apply Nat.eqb_refl.
  - apply Nat.eqb_refl.
Qed.

Lemma assoc_first_key k x (props : list (string * value)) :
  NoDup (map fst props) -> (k, x) ∈ props -> assoc k props = Some x.
Proof.
  induction props as [|[k' x'] ps IH]; intros Hnd Hin.
  - by apply elem_of_nil in Hin.
  - cbn in Hnd. apply NoDup_cons in Hnd as [Hfresh Hnd].
    apply elem_of_cons in Hin as [Heq|Hin]; cbn.
    + injection Heq as -> ->. by rewrite String.eqb_refl.
    + destruct (String.eqb_spec k' k) as [->|_].
      * exfalso. apply Hfresh. apply list_elem_of_fmap. by exists (k, x).
      * by apply IH.
Qed.

Lemma distinct_keys_props (props : list (string * value)) :
  (fix all (ps : list (string * value)) : bool :=
     match ps with
     | [] => true
     | (_, x) :: ps' => distinct_keys x && all ps'
     end) props = forallb (fun kv => distinct_keys kv.2) props.
Proof. induction props as [|[k x] ps IH]; cbn; [done|]. by rewrite IH. Qed.

Lemma every_key_compares_self (props : list (string * value)) v :
  enum_props v = props ->
  NoDup (map fst props) ->
  Forall (fun kv => distinct_keys kv.2 = true -> compare kv.2 kv.2 = true)
         props ->
  forallb (fun kv => distinct_keys kv.2) props = true ->
  every_key_compares props v = true.
Proof.
  intros Hv Hnd IH Hwf. unfold every_key_compares.
  apply forallb_forall. intros [k x] Hin. cbn [fst snd].
  apply list_elem_of_In in Hin.
  unfold get. rewrite Hv, (assoc_first_key k x props Hnd Hin). cbn.
  rewrite Forall_forall in IH. apply (IH (k, x) Hin).
  rewrite forallb_forall in Hwf.
  apply (Hwf (k, x)). by apply list_elem_of_In.
Qed.

(** C7.  The comparator is reflexive: for every value [v] (a finite tree,
    so not a self-referential record, with the distinct keys a
    [for .. in] loop yields), [compare v v] is true; NaN, functions,
    symbols, records and sequences included. *)
Theorem compare_reflexive (v : value) :
  distinct_keys v = true -> compare v v = true.
Proof.
  induction v as [| |b|x|z|s|i d|l|l c props IH|l items props _ IH]
    using value_props_ind; intros Hwf.
  - reflexivity.
  - reflexivity.
  - cbn. by destruct b.
  - cbn [compare typeof js_type_eqb negb].
    destruct (Number_isNaN (VNumber x)) eqn:Hnan; [done|].
    cbn [andb]. by apply strict_equals_refl.
  - cbn. apply Z.eqb_refl.
  - cbn. apply String.eqb_refl.
  - cbn [compare typeof js_type_eqb negb]. apply String.eqb_refl.
  - reflexivity.
  - rewrite compare_VObject. unfold compare_deep.
    cbn [distinct_keys] in Hwf. rewrite distinct_keys_props in Hwf.
    apply andb_prop in Hwf as [Hnd Hwf]. apply bool_decide_eq_true in Hnd.
    cbn [typeof js_type_eqb truthy enum_props andb].
    rewrite (every_key_compares_self props (VObject l c props) eq_refl
               Hnd IH Hwf).
    rewrite Nat.eqb_refl. cbn. apply Nat.eqb_refl.
  - rewrite compare_VIterable. unfold compare_deep.
    cbn [distinct_keys] in Hwf. rewrite distinct_keys_props in Hwf.
    apply andb_prop in Hwf as [Hnd Hwf]. apply bool_decide_eq_true in Hnd.
    cbn [typeof js_type_eqb truthy enum_props andb].
    rewrite (every_key_compares_self props (VIterable l items props)
               eq_refl Hnd IH Hwf).
    rewrite Nat.eqb_refl. cbn. apply Nat.eqb_refl.
Qed.

Lemma compare_reflexive_witness :
  distinct_keys sample_record = true
  /\ compare sample_record sample_record = true.
Proof.
  split; [vm_compute; reflexivity|].
  apply (compare_reflexive sample_record). vm_compute. reflexivity.
Defined.

(** What [compare] decides on a record: the loop and the key counts, and
    then the final [received === expected]. *)
Lemma compare_record_iff (r e : value) :
  is_record r = true ->
  compare r e = true <->
    (typeof e = TObject /\ truthy e = true)
    /\ (forall k x, (k, x) ∈ enum_props r -> compare x (get e k) = true)
    /\ length (enum_props r) = length (enum_props e)
    /\ strict_equals r e = true.
Proof.
  intros Hr.
  assert (compare r e = compare_deep r e) as ->.
  { destruct r; try discriminate Hr;
      [apply compare_VObject | apply compare_VIterable]. }
  unfold compare_deep, every_key_compares.
  rewrite !andb_true_iff, forallb_forall, Nat.eqb_eq.
  split.
  - intros [[[[Ht Hn] Hall] Hlen] Hid]. repeat split; try done.
    + by destruct (typeof e).
    + intros k x Hin. apply (Hall (k, x)). by apply list_elem_of_In.
  - intros [[Ht Hn] [Hall [Hlen Hid]]]. repeat split; try done.
    + by rewrite Ht.
    + intros [k x] Hin. apply Hall. by apply list_elem_of_In.
Qed.

(** Two records that [compare] accepts are one object. *)
Lemma compare_record_same_location l c props m c' props' :
  compare (VObject l c props) (VObject m c' props') = true -> l = m.
Proof.
  intros H. apply compare_record_iff in H as (_ & _ & _ & Hid); [|done].
  by apply Nat.eqb_eq in Hid.
Qed.

(** The comparator on the examples of the specification, and on one
    record against itself. *)
Example compare_NaN : compare (VNumber S754_nan) (VNumber S754_nan) = true.
Proof. reflexivity. Qed.

Example compare_two_functions : compare (VFunction 1) (VFunction 2) = true.
Proof. reflexivity. Qed.

Example compare_fewer_keys :
  compare (VObject 1 Plain [("a", VNumber one); ("b", VNumber one)])
          (record_a1 2) = false.
Proof. reflexivity. Qed.

Example compare_string_number : compare (VString "x") (VNumber one) = false.
Proof. reflexivity. Qed.

Example compare_one_record : compare (record_a1 1) (record_a1 1) = true.
Proof. reflexivity. Qed.

(** C1.  On the two records [{a: 1}] and [{a: 1}] held at different
    locations, every key of the first compares equal against the second
    and the key counts agree, yet [compare] answers false: the record
    branch falls through to [received === expected]. *)
Theorem compare_equal_records_at_two_locations :
  (forall k x, (k, x) ∈ enum_props (record_a1 1) ->
               compare x (get (record_a1 2) k) = true)
  /\ length (enum_props (record_a1 1)) = length (enum_props (record_a1 2))
  /\ compare (record_a1 1) (record_a1 2) = false.
Proof.
  split; [|split; reflexivity].
  intros k x Hin. cbn in Hin.
  apply list_elem_of_singleton in Hin. injection Hin as -> ->.
  reflexivity.
Qed.

End JsFacts.

(* ===================================================================== *)
(** * Properties of the literal generator *)
(* ===================================================================== *)

Module LiteralFacts.
Import Js Literal LiteralSamples.

(** The pattern on the string form of [Symbol.iterator], of a symbol
    described as [foo], and of a symbol that only contains a match. *)
Example exec_well_known :
  symbol_pattern_exec "Symbol(Symbol.iterator)"
  = Some {| matched_text := "Symbol(Symbol.iterator)"; group1 := "iterator" |}.
Proof. reflexivity. Qed.

Example exec_plain : symbol_pattern_exec "Symbol(foo)" = None.
Proof. reflexivity. Qed.

Example exec_inside :
  symbol_pattern_exec "Symbol(see Symbol(Symbol.a) and (b))"
  = Some {| matched_text := "Symbol(Symbol.a) and (b))";
            group1 := "a) and (b)" |}.
Proof. reflexivity. Qed.

(** For a well-known symbol what is handed to [t.identifier] is the
    match array, not the text of its group; the call throws when the
    builder does. *)
Lemma generate_well_known_symbol
    (identifier_of_match : RegExpExecArray -> outcome GeneratedAst) id :
  generateAstFromValue identifier_of_match
    (VSymbol id (Some "Symbol.iterator"))
  = match identifier_of_match
            {| matched_text := "Symbol(Symbol.iterator)";
               group1 := "iterator" |} with
    | Thrown m => Thrown m
    | Returned property =>
        Returned (MemberExpression (Identifier (NameString "Symbol"))
                                   property)
    end.
Proof.
  cbn [generateAstFromValue]. unfold getSymbolAstFromStandardSymbol.
  change (symbol_pattern_exec (symbol_toString (Some "Symbol.iterator")))
    with (Some {| matched_text := "Symbol(Symbol.iterator)";
                  group1 := "iterator" |}).
  cbv beta iota. by destruct (identifier_of_match _).
Qed.

(** C9, as the code has it.  In non-serialized mode a symbol whose
    string form contains no match of the pattern becomes the string
    literal of its string form [Symbol(description)]. *)
Theorem generateSnapshot_symbol (escape : string -> string)
    (identifier_of_match : RegExpExecArray -> outcome GeneratedAst)
    (id : nat) (description : option string) :
  symbol_pattern_exec (symbol_toString description) = None ->
  generateSnapshot escape identifier_of_match (VSymbol id description)
                   {| serialized := false |}
  = Returned (Some (StringLiteral (symbol_toString description))).
Proof.
  intros Hno. unfold generateSnapshot. cbn [serialized generateAstFromValue].
  unfold getSymbolAstFromStandardSymbol. by rewrite Hno.
Qed.

Lemma generateSnapshot_symbol_witness :
  generateSnapshot (fun s => s) identifier_throws (VSymbol 7 (Some "foo"))
                   {| serialized := false |}
  = Returned (Some (StringLiteral "Symbol(foo)")).
Proof.
  apply (generateSnapshot_symbol (fun s => s) identifier_throws 7
           (Some "foo")).
  reflexivity.
Defined.

(** C9, as stated, fails on the symbol described as [foo]: the literal
    holds [Symbol(foo)], not the description [foo]. *)
Lemma generateSnapshot_symbol_not_description :
  generateSnapshot (fun s => s) identifier_throws (VSymbol 7 (Some "foo"))
                   {| serialized := false |}
  = Returned (Some (StringLiteral "Symbol(foo)"))
  /\ StringLiteral "Symbol(foo)" <> StringLiteral "foo".
Proof. split; [reflexivity | discriminate]. Qed.

End LiteralFacts.

(* ===================================================================== *)
(** * Properties of the state machine *)
(* ===================================================================== *)

Module StateFacts.
Import Js State StateSamples.

(** *** [save] *)

(** C6, as the code has it.  When the mapping is empty and a companion
    file exists, [save] either hands pending inline records to the
    patcher (state dirty or unchecked keys left, queue not empty; that
    call throws), or reports [deleted = true] under every policy, and
    removes the file only under [all]. *)
Theorem save_empty_mapping (s : SnapshotState) (fileError : option string)
    (patcherError : string) :
  size (_snapshotData s) = 0 ->
  save s true fileError patcherError =
    if (_dirty s || negb (Nat.eqb (size (_uncheckedKeys s)) 0))
       && negb (Nat.eqb (length (_inlineSnapshots s)) 0)
    then (Thrown patcherError,
          [SaveInlineSnapshots (_inlineSnapshots s) (_prettierPath s)])
    else (Returned {| deleted := true; saved := false |},
          if is_all (_updateSnapshot s) then [UnlinkSync (_snapshotPath s)]
          else []).
Proof.
  intros Hempty. unfold save. rewrite Hempty. cbn [Nat.eqb andb negb].
  destruct (_dirty s || negb (Nat.eqb (size (_uncheckedKeys s)) 0));
    cbn [andb]; [|reflexivity].
  destruct (Nat.eqb (length (_inlineSnapshots s)) 0); reflexivity.
Qed.

Lemma save_empty_mapping_witness :
  size (_snapshotData stale_none) = 0
  /\ save stale_none true None sample_patcher_error
     = (Returned {| deleted := true; saved := false |}, []).
Proof.
  split; [reflexivity|].
  rewrite (save_empty_mapping stale_none None sample_patcher_error);
    reflexivity.
Defined.

(** C6, as stated, fails under policy [none]: the file is not removed,
    and [deleted] is reported all the same. *)
Lemma save_reports_deleted_without_unlink :
  save stale_none true None sample_patcher_error
  = (Returned {| deleted := true; saved := false |}, []).
Proof. reflexivity. Qed.

(** C4, as the code has it.  [save] leaves the state as it is, so a
    second [save], run against the file system the first one left (and
    with [saveSnapshotFile] failing or not as it did), performs exactly
    the writes of the first; only the deletion of the companion file is
    not repeated. *)
Theorem save_twice (s : SnapshotState) (existsSync : bool)
    (fileError : option string) (patcherError patcherError' : string) :
  (save s
        (exists_after existsSync (save s existsSync fileError patcherError).2)
        fileError patcherError').2
  = filter (fun e => is_write e = true) (save s existsSync fileError patcherError).2.
Proof.
  unfold save.
  destruct ((_dirty s || negb (Nat.eqb (size (_uncheckedKeys s)) 0))
            && negb (Nat.eqb (size (_snapshotData s)) 0
                     && Nat.eqb (length (_inlineSnapshots s)) 0)) eqn:Hw.
  - destruct (Nat.eqb (size (_snapshotData s)) 0),
             (Nat.eqb (length (_inlineSnapshots s)) 0), fileError;
      reflexivity.
  - destruct (Nat.eqb (size (_snapshotData s)) 0) eqn:Hext;
      [|reflexivity].
    destruct existsSync; [|reflexivity].
    cbn [andb snd].
    destruct (is_all (_updateSnapshot s)); reflexivity.
Qed.

(** C4, as stated, fails on a dirty state: the second [save] persists
    the companion file again. *)
Lemma save_twice_writes_again :
  (save dirty_one false None sample_patcher_error).2
  = [SaveSnapshotFile {["t 1" := VString "x"]} "a.test.js.snap"]
  /\ (save dirty_one
        (exists_after false
           (save dirty_one false None sample_patcher_error).2)
        None sample_patcher_error).2
     = [SaveSnapshotFile {["t 1" := VString "x"]} "a.test.js.snap"].
Proof. split; reflexivity. Qed.

(** *** [match] and [fail] *)

Section MatchFacts.
Variable U : Utils.

(** [match] is its preparation followed by the decision. *)
Lemma match_stages o existsSync s :
  match_ U o existsSync s
  = write_or_report U o existsSync (call_count o s) (call_key U o s)
      (compared_value U o) (call_expected U o s) (call_pass U o s)
      (call_hasSnapshot U o s) (before_decision U o s).
Proof.
  destruct s as [cs dirty idx u data path inl unch pp a ex' m un up].
  unfold match_, count_call, before_decision, call_pass, call_hasSnapshot,
    call_expected, call_key, call_count.
  cbn [_counters _dirty _index _updateSnapshot _snapshotData _snapshotPath
       _inlineSnapshots _uncheckedKeys _prettierPath added expand matched
       unmatched updated set_counters].
  destruct (isInline o) eqn:Hin.
  - cbn [andb negb].
    destruct (negb (is_undefined _));
      cbn [negb set_uncheckedKeys _snapshotData];
      rewrite ?andb_false_r; reflexivity.
  - cbn [andb negb set_uncheckedKeys _counters _dirty _index
         _updateSnapshot _snapshotData _snapshotPath _inlineSnapshots
         _uncheckedKeys _prettierPath added expand matched unmatched
         updated].
    rewrite !andb_true_r.
    destruct (opt_serialized o);
      [destruct (strict_equals _ _) | destruct (compare _ _)]; reflexivity.
Qed.

Ltac open_decision s3 :=
  destruct s3 as [cs dirty idx u data path inl unch pp a ex' m un up];
  unfold write_or_report, _addSnapshot, totals, incr_added, incr_matched,
    incr_unmatched, incr_updated, set_totals, set_dirty, set_snapshotData,
    set_inlineSnapshots;
  cbn [_counters _dirty _index _updateSnapshot _snapshotData _snapshotPath
       _inlineSnapshots _uncheckedKeys _prettierPath added expand matched
       unmatched updated].

Lemma write_or_report_totals o ex n k v e p has s3 :
  match write_or_report U o ex n k v e p has s3 with
  | (Returned _, s') => one_total_incremented (totals s3) (totals s')
  | (Thrown _, s') => no_total_decremented (totals s3) (totals s')
  end.
Proof.
  open_decision s3.
  destruct u, has, p, (isInline o), ex, (topFrame U (error o)),
    (opt_serialized o), (removeExtraLineBreaks_of U v),
    (removeExtraLineBreaks_of U e);
    cbn; unfold one_total_incremented, no_total_decremented; cbn;
    first [lia | auto 6].
Qed.

Lemma write_or_report_new_absent o ex n k v e p s3 :
  _updateSnapshot s3 = UpdateNew -> isInline o = false ->
  exists r s',
    write_or_report U o ex n k v e p false s3 = (Returned r, s')
    /\ pass r = true
    /\ _snapshotData s' = <[k := v]> (_snapshotData s3)
    /\ _dirty s' = true
    /\ totals s' = (added s3 + 1, matched s3, unmatched s3, updated s3).
Proof.
  intros Hu Hin. open_decision s3. cbn in Hu. subst u. rewrite Hin.
  cbn. do 2 eexists. repeat split; reflexivity.
Qed.

(** The helper throws on a value of [match] only when that value is
    not a string. *)
Lemma removeExtraLineBreaks_of_thrown e m :
  removeExtraLineBreaks_of U e = Thrown m ->
  typeof e <> TString /\ removeExtraLineBreaks_other U e = Thrown m.
Proof.
  destruct e; cbn; try discriminate; intros H; (split; [discriminate|exact H]).
Qed.

End MatchFacts.

(** C3, as the code has it.  Under policy [new], an external [match]
    call whose resolved key is absent from the mapping writes the
    snapshot under that key and increments [added] by one, whether or
    not a companion file is already persisted; the other totals,
    [unmatched] among them, stay. *)
Theorem match_new_absent_key (U : Utils) (o : SnapshotMatchOptions)
    (existsSync : bool) (s : SnapshotState) :
  _updateSnapshot s = UpdateNew ->
  isInline o = false ->
  _snapshotData s !! call_key U o s = None ->
  exists r s',
    match_ U o existsSync s = (Returned r, s')
    /\ pass r = true
    /\ _snapshotData s' !! call_key U o s = Some (compared_value U o)
    /\ totals s' = (added s + 1, matched s, unmatched s, updated s).
Proof.
  intros Hu Hin Habs. rewrite match_stages.
  assert (call_hasSnapshot U o s = false) as ->.
  { unfold call_hasSnapshot. rewrite Hin.
    apply bool_decide_eq_false. by apply not_elem_of_dom. }
  destruct (write_or_report_new_absent U o existsSync (call_count o s)
              (call_key U o s) (compared_value U o) (call_expected U o s)
              (call_pass U o s) (before_decision U o s) Hu Hin)
    as (r & s' & -> & Hpass & Hdata & _ & Htot).
  exists r, s'. repeat split; [done| |done].
  rewrite Hdata. apply lookup_insert_eq.
Qed.

Lemma match_new_absent_key_witness :
  exists r s',
    match_ sample_utils call_t false persisted_other = (Returned r, s')
    /\ pass r = true
    /\ _snapshotData s' !! call_key sample_utils call_t persisted_other
       = Some (compared_value sample_utils call_t)
    /\ totals s' = (1, 0, 0, 0).
Proof.
  apply (match_new_absent_key sample_utils call_t false persisted_other);
    reflexivity.
Defined.

(** C3, as stated, fails when a companion file is already persisted:
    the key [t 1] is absent, [added] goes from 0 to 1 and [unmatched]
    stays 0. *)
Lemma match_new_absent_key_persisted :
  _snapshotData persisted_other !! "t 1" = None
  /\ totals persisted_other = (0, 0, 0, 0)
  /\ exists r s',
       match_ sample_utils call_t true persisted_other = (Returned r, s')
       /\ ret_key r = "t 1"
       /\ _snapshotData s' !! "t 1" = Some (VString (quoted "v"))
       /\ totals s' = (1, 0, 0, 0).
Proof.
  split; [reflexivity|]. split; [reflexivity|].
  do 2 eexists. split; [vm_compute; reflexivity|].
  repeat split; reflexivity.
Qed.

(** C10, as the code has it.  A [match] call that returns increments
    exactly one of the four totals by one, and one that throws
    decrements none; [fail] increments [unmatched] alone by one;
    [markSnapshotsAsCheckedForTest] and [removeUncheckedKeys] leave the
    totals; [clear] resets the four of them to zero. *)
Theorem totals_invariant (U : Utils) (s : SnapshotState) :
  (forall o existsSync,
      match match_ U o existsSync s with
      | (Returned _, s') => one_total_incremented (totals s) (totals s')
      | (Thrown _, s') => no_total_decremented (totals s) (totals s')
      end)
  /\ (forall name _received k0,
        totals (fail U name _received k0 s).2
        = (added s, matched s, unmatched s + 1, updated s))
  /\ (forall name, totals (markSnapshotsAsCheckedForTest U name s) = totals s)
  /\ totals (removeUncheckedKeys s) = totals s
  /\ totals (clear s) = (0, 0, 0, 0).
Proof.
  split; [|split; [|split; [|split]]].
  - intros o existsSync. rewrite match_stages.
    apply (write_or_report_totals U o existsSync (call_count o s)
             (call_key U o s) (compared_value U o) (call_expected U o s)
             (call_pass U o s) (call_hasSnapshot U o s)
             (before_decision U o s)).
  - intros name _received k0. by destruct s.
  - intros name. by destruct s.
  - unfold removeUncheckedKeys.
    by destruct (is_all _ && negb (Nat.eqb (size (_uncheckedKeys s)) 0)).
  - reflexivity.
Qed.

(** C10, as stated, fails twice: an inline [match] under [new] that
    cannot infer its frame throws with all four totals as they were, and
    [clear] takes [added] from 1 back to 0. *)
Lemma totals_not_always_incremented :
  (exists s',
      match_ sample_utils inline_call_no_frame false (loaded UpdateNew ∅)
      = (Thrown "Jest: Couldn't infer stack frame for inline snapshot.", s')
      /\ totals s' = totals (loaded UpdateNew ∅))
  /\ totals after_one_add = (1, 0, 0, 0)
  /\ totals (clear after_one_add) = (0, 0, 0, 0).
Proof.
  split; [|split; reflexivity].
  eexists. split; [vm_compute; reflexivity|]. reflexivity.
Qed.

(** Two examples of the specification under policy [all]: a mismatch
    on an existing key counts as [updated], not as [added]; and after a
    run that checks one of two persisted keys, [removeUncheckedKeys]
    leaves that key alone in the mapping. *)
Example all_mismatch_updates :
  let s := loaded UpdateAll {["t 1" := VString "old"]} in
  exists r s',
    match_ sample_utils call_t true s = (Returned r, s')
    /\ pass r = true
    /\ totals s' = (0, 0, 0, 1)
    /\ _snapshotData s' !! "t 1" = Some (VString (quoted "v")).
Proof.
  do 2 eexists. split; [vm_compute; reflexivity|].
  repeat split; reflexivity.
Qed.

Example all_prunes_unchecked :
  let s :=
    loaded UpdateAll {["t 1" := VString "old"; "gone 1" := VString "x"]} in
  dom (_snapshotData
         (removeUncheckedKeys (match_ sample_utils call_t true s).2))
  = {["t 1"]}.
Proof. vm_compute. reflexivity. Qed.

(** *** Policy [none] *)




Lemma compared_value_text U o :
  opt_serialized o = true ->
  removeExtraLineBreaks_of U (compared_value U o)
  = Returned (VString (removeExtraLineBreaks U (serialized_text U o))).
Proof. intros Hser. unfold compared_value. by rewrite Hser. Qed.






End StateFacts.

(* ===================================================================== *)
(** * Properties of the patcher *)
(* ===================================================================== *)

Module PatcherFacts.
Import Patcher PatcherSamples.

(** *** Grouping *)

Lemma group_lookup_set {A} key key' (g : list A) object :
  group_lookup key (group_set key' g object)
  = if String.eqb key' key then Some g else group_lookup key object.
Proof.
  induction object as [|[k g0] rest IH]; cbn.
  - reflexivity.
  - destruct (String.eqb_spec k key') as [->|Hne]; cbn.
    + by destruct (String.eqb key' key).
    + rewrite IH. destruct (String.eqb_spec k key) as [->|_]; [|done].
      destruct (String.eqb_spec key' key) as [->|_]; [done|done].
Qed.

Lemma fold_group_Thrown {A} (createKey : A -> string) snapshots m :
  fold_left (group_step createKey) snapshots (Thrown m) = Thrown m.
Proof. by induction snapshots as [|r rest IH]. Qed.

Lemma fold_group_lookup_from {A} (createKey : A -> string) snapshots key
    object0 object :
  fold_left (group_step createKey) snapshots (Returned object0)
  = Returned object ->
  default [] (group_lookup key object)
  = default [] (group_lookup key object0)
      ++ filter (fun r => createKey r = key) snapshots.
Proof.
  revert object0. induction snapshots as [|r rest IH]; intros object0;
    cbn [fold_left].
  - intros [= <-]. by rewrite filter_nil, app_nil_r.
  - unfold group_step at 2.
    destruct (group_lookup (createKey r) object0) as [g|] eqn:Hg.
    + intros H. rewrite (IH _ H), group_lookup_set.
      destruct (String.eqb_spec (createKey r) key) as [Heq|Hne].
      * rewrite filter_cons_True by done. rewrite <- Heq, Hg. cbn.
        by rewrite <- app_assoc.
      * by rewrite filter_cons_False.
    + destruct (inherited (createKey r)).
      * by rewrite fold_group_Thrown.
      * intros H. rewrite (IH _ H), group_lookup_set.
        destruct (String.eqb_spec (createKey r) key) as [Heq|Hne].
        -- rewrite filter_cons_True by done. rewrite <- Heq, Hg. done.
        -- by rewrite filter_cons_False.
Qed.

(** The group of a key holds the records with that key, in order. *)
Lemma groupSnapshotsBy_lookup {A} (createKey : A -> string) snapshots key
    object :
  groupSnapshotsBy createKey snapshots = Returned object ->
  default [] (group_lookup key object)
  = filter (fun r => createKey r = key) snapshots.
Proof.
  intros H. by rewrite (fold_group_lookup_from createKey snapshots key [] _ H).
Qed.

(** The grouping returns when no key is an inherited property. *)
Lemma fold_group_returns {A} (createKey : A -> string) snapshots object0 :
  Forall (fun r => inherited (createKey r) = false) snapshots ->
  exists object,
    fold_left (group_step createKey) snapshots (Returned object0)
    = Returned object.
Proof.
  intros Hown. revert object0.
  induction Hown as [|r rest Hr _ IH]; intros object0; cbn [fold_left].
  - by eexists.
  - unfold group_step at 2. rewrite Hr.
    destruct (group_lookup (createKey r) object0); apply IH.
Qed.

Lemma has_colon_app a b : has_colon (a +:+ String ":" b) = true.
Proof.
  induction a as [|c a IH]; [reflexivity|].
  change (has_colon (String c (a +:+ String ":" b)) = true).
  unfold has_colon in *. cbn [list_ascii_of_string existsb].
  rewrite IH. apply orb_true_r.
Qed.

Lemma inherited_no_colon key : inherited key = true -> has_colon key = false.
Proof.
  unfold inherited. cbn [existsb Object_prototype_keys].
  repeat
    match goal with
    | |- context [String.eqb key ?k] =>
        destruct (String.eqb_spec key k) as [->|_]; [reflexivity|]
    end.
  discriminate.
Qed.

(** A frame key is the empty string or has a colon: it is no inherited
    property, so the grouping by frame returns. *)
Lemma frame_key_own f : inherited (frame_key f) = false.
Proof.
  unfold frame_key. destruct (line f) as [l|]; [|reflexivity].
  destruct (column f) as [c|]; [|reflexivity].
  destruct (inherited _) eqn:Hin; [|reflexivity].
  apply inherited_no_colon in Hin.
  change (pretty l +:+ ":" +:+ pretty (c - 1)%Z)
    with (pretty l +:+ String ":" (pretty (c - 1)%Z)) in Hin.
  by rewrite has_colon_app in Hin.
Qed.

Lemma groupSnapshotsByFrame_returns snapshots :
  exists grouped, groupSnapshotsByFrame snapshots = Returned grouped.
Proof.
  apply fold_group_returns. apply Forall_forall. intros i _.
  destruct (snapshots !! i) as [r|]; cbn; [apply frame_key_own|reflexivity].
Qed.

Lemma two_members_length {A} (l : list A) x y :
  x <> y -> x ∈ l -> y ∈ l -> 1 < length l.
Proof.
  intros Hne Hx Hy. destruct l as [|a [|b l']]; cbn; [| |lia].
  - by apply elem_of_nil in Hx.
  - apply list_elem_of_singleton in Hx, Hy. congruence.
Qed.

Lemma frame_at_key r p : frame_at r p -> frame_key (frame r) = position_key p.
Proof.
  intros [Hl Hc]. unfold frame_key, position_key. rewrite Hl, Hc.
  by replace (pos_column p + 1 - 1)%Z with (pos_column p) by lia.
Qed.

(** Two records at the position of one call share a group. *)
Lemma shared_position_group snapshots i j r1 r2 p :
  i <> j -> snapshots !! i = Some r1 -> snapshots !! j = Some r2 ->
  frame_at r1 p -> frame_at r2 p ->
  exists grouped g,
    groupSnapshotsByFrame snapshots = Returned grouped
    /\ group_lookup (position_key p) grouped = Some g
    /\ 1 < length g.
Proof.
  intros Hne Hi Hj H1 H2.
  destruct (groupSnapshotsByFrame_returns snapshots) as [grouped Hgrouped].
  pose proof (groupSnapshotsBy_lookup
    (fun i => default EmptyString (frame_key <$> (frame <$> snapshots !! i)))
    (seq 0 (length snapshots)) (position_key p) grouped Hgrouped) as Hg.
  assert (1 < length (default [] (group_lookup (position_key p) grouped)))
    as Hlen.
  { rewrite Hg. apply (two_members_length _ i j Hne).
    - apply list_elem_of_filter. split.
      + rewrite Hi. cbn. by apply frame_at_key.
      + apply elem_of_seq. apply lookup_lt_Some in Hi. lia.
    - apply list_elem_of_filter. split.
      + rewrite Hj. cbn. by apply frame_at_key.
      + apply elem_of_seq. apply lookup_lt_Some in Hj. lia. }
  destruct (group_lookup (position_key p) grouped) as [g|] eqn:Hlook;
    cbn in Hlen; [|lia].
  by exists grouped, g.
Qed.

(** *** The traversal *)

Section Traversal.
Variable E : Engine.

(** The visitor throws one error only. *)
Lemma visit_throws_multiple grouped n t m :
  visitCallExpression E grouped n t = Thrown m -> m = multiple_message.
Proof.
  unfold visitCallExpression.
  destruct (callee n) as [ty p|ty]; [|discriminate].
  destruct (negb (String.eqb ty "Identifier")); [discriminate|].
  destruct (group_lookup _ _) as [g|]; [|discriminate].
  destruct (Nat.ltb 1 (length g)); [by intros [= <-]|].
  destruct (map _ _); discriminate.
Qed.

(** A call whose group has more than one record stops the traversal,
    at that call or at an earlier one of the same kind. *)
Lemma traverse_calls_multiple grouped ast n p g :
  n ∈ ast -> callee n = MemberExpression "Identifier" p ->
  group_lookup (position_key p) grouped = Some g -> 1 < length g ->
  forall t, traverse_calls E grouped ast t = Thrown multiple_message.
Proof.
  intros Hin Hc Hg Hlen.
  induction ast as [|n0 rest IH]; intros t.
  - by apply elem_of_nil in Hin.
  - cbn [traverse_calls].
    destruct (visitCallExpression E grouped n0 t) as [[n' t']|m] eqn:Hv.
    + apply elem_of_cons in Hin as [->|Hin].
      * exfalso. unfold visitCallExpression in Hv.
        apply Nat.ltb_lt in Hlen.
        rewrite Hc, String.eqb_refl in Hv. cbn [negb] in Hv.
        rewrite Hg, Hlen in Hv. discriminate.
      * by rewrite (IH Hin t').
    + by rewrite (visit_throws_multiple _ _ _ _ Hv).
Qed.

(** The invariant of [remainingSnapshots]: it holds when the traversal
    starts on records that are not bound yet, and every visit keeps
    it. *)
Lemma remaining_invariant_init snapshots :
  Forall (fun r => node r = None) snapshots ->
  remaining_invariant snapshots
    {| records := snapshots;
       remainingSnapshots := list_to_set (map snapshot snapshots) |}.
Proof.
  intros Hnone. split; [done|]. intros text. cbn.
  rewrite elem_of_list_to_set. split.
  - intros Hin. split; [done|]. intros j r Hj [n Hn].
    rewrite Forall_forall in Hnone.
    assert (r ∈ snapshots) as Hr by (apply list_elem_of_lookup; eauto).
    rewrite (Hnone r Hr) in Hn. discriminate.
  - by intros [Hin _].
Qed.

Lemma visit_invariant snapshots grouped n t n' t' :
  remaining_invariant snapshots t ->
  visitCallExpression E grouped n t = Returned (n', t') ->
  remaining_invariant snapshots t'.
Proof.
  intros Hinv. pose proof Hinv as [Htexts Hrem]. unfold visitCallExpression.
  destruct (callee n) as [ty p|ty]; [|intros ?; simplify_eq; assumption].
  destruct (negb (String.eqb ty "Identifier"));
    [intros ?; simplify_eq; assumption|].
  destruct (group_lookup _ _) as [g|]; [|intros ?; simplify_eq; assumption].
  destruct (Nat.ltb 1 (length g)) eqn:Hlen; [discriminate|].
  apply Nat.ltb_ge in Hlen.
  destruct g as [|i [|i' g']]; cbn in Hlen;
    [cbn; intros ?; simplify_eq; assumption| |lia].
  destruct (records t !! i) as [ri|] eqn:Hi; cbn;
    rewrite ?Hi; cbn;
    [|intros ?; simplify_eq; assumption].
  intros ?; simplify_eq. split; cbn.
  - intros j. rewrite <- Htexts.
    destruct (decide (i = j)) as [<-|Hne].
    + rewrite list_lookup_alter_eq, Hi. reflexivity.
    + by rewrite list_lookup_alter_ne.
  - intros text. rewrite elem_of_difference, Hrem.
    match goal with
    | |- context [text ∉ ?S] =>
        assert (text ∈ S <-> text = snapshot ri) as ->
          by (clear; set_unfold; tauto)
    end.
    split.
    + intros [[Hin Hbound] Hne]. split; [done|].
      intros j r Hj Hnode. destruct (decide (i = j)) as [<-|Hij].
      * rewrite list_lookup_alter_eq, Hi in Hj. cbn in Hj.
        injection Hj as <-. cbn. congruence.
      * rewrite list_lookup_alter_ne in Hj by done. by apply (Hbound j).
    + intros [Hin Hbound].
      assert (snapshot ri <> text) as Hne.
      { match type of Hbound with
        | forall j r, alter ?f _ _ !! j = Some r -> _ =>
            apply (Hbound i (f ri));
              [by rewrite list_lookup_alter_eq, Hi | by eexists]
        end. }
      split; [split; [done|]|congruence].
      intros j r Hj Hnode. destruct (decide (i = j)) as [<-|Hij].
      * congruence.
      * apply (Hbound j r); [by rewrite list_lookup_alter_ne | done].
Qed.

Lemma traverse_calls_invariant snapshots grouped ast t ast' t' :
  remaining_invariant snapshots t ->
  traverse_calls E grouped ast t = Returned (ast', t') ->
  remaining_invariant snapshots t'.
Proof.
  revert t ast'. induction ast as [|n rest IH]; intros t ast' Hinv; cbn.
  - intros ?; simplify_eq; assumption.
  - destruct (visitCallExpression E grouped n t) as [[n1 t1]|] eqn:Hv;
      [|discriminate].
    destruct (traverse_calls E grouped rest t1) as [[rest1 t2]|] eqn:Hr;
      [|discriminate].
    intros ?; simplify_eq. apply (IH t1 rest1); [|done].
    by apply (visit_invariant snapshots grouped n t n1 t1).
Qed.

(** When the traversal went through, a record left unbound whose text
    no bound record carries raises the error. *)
Lemma traverseAst_unbound_text snapshots grouped ast ast' t i r :
  Forall (fun r => node r = None) snapshots ->
  groupSnapshotsByFrame snapshots = Returned grouped ->
  traverse_calls E grouped ast
    {| records := snapshots;
       remainingSnapshots := list_to_set (map snapshot snapshots) |}
  = Returned (ast', t) ->
  records t !! i = Some r ->
  (forall j r', records t !! j = Some r' -> is_Some (node r') ->
                snapshot r' <> snapshot r) ->
  traverseAst E snapshots ast = Thrown locate_message.
Proof.
  intros Hnone Hgrouped Htr Hi Hfree. unfold traverseAst.
  rewrite Hgrouped, Htr.
  destruct (traverse_calls_invariant snapshots _ ast _ ast' t
              (remaining_invariant_init snapshots Hnone) Htr)
    as [Htexts Hrem].
  assert (snapshot r ∈ remainingSnapshots t) as Hin.
  { apply Hrem. split; [|done].
    specialize (Htexts i). rewrite Hi in Htexts. cbn in Htexts.
    destruct (snapshots !! i) as [r0|] eqn:H0; [|discriminate].
    injection Htexts as ->. apply list_elem_of_fmap. exists r0.
    split; [done|]. apply list_elem_of_lookup. eauto. }
  destruct (Nat.eqb (size (remainingSnapshots t)) 0) eqn:Hsz; [|done].
  apply Nat.eqb_eq, size_empty_inv in Hsz.
  exfalso. apply (not_elem_of_empty (C:=gset string) (snapshot r)).
  by apply Hsz.
Qed.

End Traversal.

(** C8.  When two pending records of a file resolve to the position of
    one and the same call expression of that file, [saveSnapshotsForFile]
    throws the multiple-inline-snapshots error and the file system is as
    it was. *)
Theorem two_records_one_call (E : Engine) (snapshots : list InlineSnapshot)
    (sourceFilePath sourceFile : string) (fs : gmap string string)
    (ast : list CallExpression) (i j : nat) (r1 r2 : InlineSnapshot)
    (n : CallExpression) (p : Position) :
  fs !! sourceFilePath = Some sourceFile ->
  parse E sourceFilePath sourceFile = Returned ast ->
  i <> j -> snapshots !! i = Some r1 -> snapshots !! j = Some r2 ->
  frame_at r1 p -> frame_at r2 p ->
  n ∈ ast -> callee n = MemberExpression "Identifier" p ->
  saveSnapshotsForFile E snapshots sourceFilePath fs
  = (Thrown multiple_message, fs).
Proof.
  intros Hfs Hparse Hne Hi Hj H1 H2 Hin Hcallee.
  destruct (shared_position_group snapshots i j r1 r2 p Hne Hi Hj H1 H2)
    as (grouped & g & Hgrouped & Hg & Hlen).
  unfold saveSnapshotsForFile, traverseAst.
  rewrite Hfs, Hparse, Hgrouped.
  by rewrite (traverse_calls_multiple E _ ast n p g Hin Hcallee Hg Hlen).
Qed.

Lemma two_records_one_call_witness :
  saveSnapshotsForFile sample_engine same_call_records "a.test.js" sample_fs
  = (Thrown multiple_message, sample_fs).
Proof.
  apply (two_records_one_call sample_engine same_call_records "a.test.js"
           sample_source sample_fs sample_calls 0 1
           (record_x 1 11)
           {| snapshot := "y";
              frame := {| file := "a.test.js"; line := Some 1%Z;
                          column := Some 11%Z |};
              node := None |}
           (call_at 1 10 0 33) {| pos_line := 1; pos_column := 10 |}).
  - reflexivity.
  - reflexivity.
  - lia.
  - reflexivity.
  - reflexivity.
  - split; reflexivity.
  - split; reflexivity.
  - apply elem_of_cons. by left.
  - reflexivity.
Defined.

(** C5, on two records that carry the same text, the first for the call
    of the file and the second for no call of it: the traversal returns
    without an error, with the second record unbound. *)
Theorem traverseAst_same_text_unbound (E : Engine) :
  exists bound ast',
    traverseAst E same_text_records sample_calls = Returned (bound, ast')
    /\ (node <$> bound !! 0)
       = Some (Some (set_arguments
                       [TemplateLiteral (escapeBacktickString E "x")]
                       (call_at 1 10 0 33)))
    /\ (node <$> bound !! 1) = Some None.
Proof.
  do 2 eexists. split; [vm_compute; reflexivity|].
  split; reflexivity.
Qed.

(** On that input [saveSnapshotsForFile] stops in its substitution
    loop, with another error. *)
Lemma saveSnapshotsForFile_same_text :
  saveSnapshotsForFile sample_engine same_text_records "a.test.js" sample_fs
  = (Thrown "Jest: no snapshot insert location found", sample_fs).
Proof. vm_compute. reflexivity. Qed.

(** A single record for the call of the sample file is patched in. *)
Example saveSnapshotsForFile_one_record :
  (saveSnapshotsForFile sample_engine [record_x 1 11] "a.test.js" sample_fs).2
    !! "a.test.js"
  = Some "expect(1).toMatchInlineSnapshot(`x`);".
Proof. vm_compute. reflexivity. Qed.

End PatcherFacts.

(* ===================================================================== *)
(** * Further properties of the comparator *)
(* ===================================================================== *)

Module JsMoreFacts.
Import Js JsSamples.

Lemma SFeqb_sym x y : SFeqb x y = SFeqb y x.
Proof.
  unfold SFeqb.
  destruct x as [s1|s1| |s1 m1 e1], y as [s2|s2| |s2 m2 e2]; cbn;
    try reflexivity; try (by destruct s1, s2).
  rewrite (Z.compare_antisym e1 e2).
  change (Pos.compare_cont Eq m2 m1)
    with (Pos.compare_cont (CompOpp Eq) m2 m1).
  rewrite <- (Pos.compare_cont_antisym m1 m2 Eq).
  destruct s1, s2; try reflexivity;
    destruct (e1 ?= e2)%Z; cbn; try reflexivity;
    by destruct (Pos.compare_cont Eq m1 m2).
Qed.

Lemma strict_equals_sym v w : strict_equals v w = strict_equals w v.
Proof.
  destruct v, w; cbn; try reflexivity.
  - by destruct b, b0.
  - apply SFeqb_sym.
  - apply Z.eqb_sym.
  - apply String.eqb_sym.
  - apply Nat.eqb_sym.
  - apply Nat.eqb_sym.
  - apply Nat.eqb_sym.
  - apply Nat.eqb_sym.
Qed.

Lemma compare_record v w :
  is_record v = true -> compare v w = compare_deep v w.
Proof.
  destruct v; try discriminate; intros _;
    [apply JsFacts.compare_VObject | apply JsFacts.compare_VIterable].
Qed.

Lemma compare_deep_not_identical v w :
  strict_equals v w = false -> compare_deep v w = false.
Proof. intros H. unfold compare_deep. rewrite H. apply andb_false_r. Qed.

(** [compare] is symmetric on values of a consistent heap, where a
    record that [===] a value is that value. *)
Theorem compare_symmetric (v w : value) :
  (is_record v = true -> strict_equals v w = true -> v = w) ->
  compare v w = compare w v.
Proof.
  intros Hheap.
  destruct (is_record v) eqn:Hv.
  - destruct (strict_equals v w) eqn:Hid.
    + by rewrite (Hheap eq_refl eq_refl).
    + rewrite (compare_record v w Hv), (compare_deep_not_identical v w Hid).
      destruct (is_record w) eqn:Hw.
      * rewrite (compare_record w v Hw). symmetry.
        apply compare_deep_not_identical. by rewrite strict_equals_sym.
      * by destruct v, w.
  - destruct (is_record w) eqn:Hw.
    + rewrite (compare_record w v Hw).
      rewrite (compare_deep_not_identical w v) by (by destruct v, w).
      by destruct v, w.
    + destruct v, w; try discriminate; try reflexivity;
        cbn -[SFeqb Number_isNaN].
      * by destruct b, b0.
      * by rewrite andb_comm, SFeqb_sym.
      * apply Z.eqb_sym.
      * apply String.eqb_sym.
      * apply String.eqb_sym.
Qed.

Lemma compare_symmetric_witness :
  compare sample_record (record_a1 2) = compare (record_a1 2) sample_record.
Proof.
  apply (compare_symmetric sample_record (record_a1 2)).
  intros _ H. vm_compute in H. discriminate H.
Defined.

End JsMoreFacts.

(* ===================================================================== *)
(** * Further properties of the literal generator *)
(* ===================================================================== *)

Module LiteralMoreFacts.
Import Js Literal LiteralSamples LiteralMore.

Lemma append_String a p s : String a p +:+ s = String a (p +:+ s).
Proof. reflexivity. Qed.

Lemma append_empty s : EmptyString +:+ s = s.
Proof. reflexivity. Qed.

Lemma append_assoc a b c : (a +:+ b) +:+ c = a +:+ (b +:+ c).
Proof.
  induction a as [|x a IH]; [done|].
  by rewrite !append_String, IH.
Qed.

Lemma strip_prefix_app p s : strip_prefix p (p +:+ s) = Some s.
Proof.
  induction p as [|a p IH]; [done|].
  rewrite append_String. cbn [strip_prefix].
  by rewrite Ascii.eqb_refl.
Qed.

Lemma strip_prefix_Some p s rest : strip_prefix p s = Some rest -> s = p +:+ rest.
Proof.
  revert s. induction p as [|a p IH]; intros s; cbn.
  - by intros [= ->].
  - destruct s as [|b s]; [discriminate|].
    destruct (Ascii.eqb_spec a b) as [->|]; [|discriminate].
    intros H. by rewrite (IH s H), append_String.
Qed.

Lemma dot_plus_close_complete x :
  x <> EmptyString -> on_one_line x = true ->
  dot_plus_close (x +:+ ")") = Some x.
Proof.
  induction x as [|c x IH]; [done|]. intros _ Hline. cbn in Hline.
  apply andb_prop in Hline as [Hc Hline]. apply negb_true_iff in Hc.
  rewrite append_String. cbn [dot_plus_close]. rewrite Hc.
  destruct x as [|c' x'].
  - reflexivity.
  - by rewrite IH.
Qed.

Lemma dot_plus_close_sound s cap :
  dot_plus_close s = Some cap ->
  cap <> EmptyString /\ on_one_line cap = true
  /\ exists rest, s = cap +:+ ")" +:+ rest.
Proof.
  revert cap. induction s as [|c s IH]; intros cap; cbn; [discriminate|].
  destruct (is_line_terminator c) eqn:Hc; [discriminate|].
  destruct (dot_plus_close s) as [cap'|].
  - intros [= <-]. destruct (IH cap' eq_refl) as (_ & Hline & rest & ->).
    split; [done|]. split; [cbn; by rewrite Hc|]. by exists rest.
  - destruct s as [|c' s']; cbn; [discriminate|].
    destruct (Ascii.eqb_spec c' ")") as [->|]; [|discriminate].
    intros [= <-]. split; [done|]. split; [cbn; by rewrite Hc|].
    by exists s'.
Qed.

(** The pattern on the string form of a symbol described as [Symbol.x],
    for a non-empty [x] on one line: the match is the whole string and
    its group is [x]. *)
Lemma symbol_pattern_exec_well_known x :
  x <> EmptyString -> on_one_line x = true ->
  symbol_pattern_exec (symbol_toString (Some ("Symbol." +:+ x)))
  = Some {| matched_text := "Symbol(Symbol." +:+ x +:+ ")"; group1 := x |}.
Proof.
  intros Hx Hline.
  change (symbol_toString (Some ("Symbol." +:+ x)))
    with (symbol_prefix +:+ (x +:+ ")")).
  assert (match_here (symbol_prefix +:+ (x +:+ ")"))
          = Some {| matched_text := "Symbol(Symbol." +:+ x +:+ ")";
                    group1 := x |}) as Hm.
  { unfold match_here.
    by rewrite strip_prefix_app, dot_plus_close_complete. }
  revert Hm. generalize (symbol_prefix +:+ (x +:+ ")")). intros s0 Hm.
  destruct s0; cbn [symbol_pattern_exec]; by rewrite Hm.
Qed.

(** For every symbol described as [Symbol.x] ([x] not empty, on one
    line) the generator, in non-serialized mode, hands [t.identifier]
    the match array (the matched text and the group [x]), not the string
    [x]; when the builder throws on it, [generateSnapshot] throws that
    error and no literal is produced. *)
Theorem generate_symbol_well_known (escape : string -> string)
    (identifier_of_match : RegExpExecArray -> outcome GeneratedAst)
    (id : nat) (x : string) (message : string) :
  x <> EmptyString -> on_one_line x = true ->
  identifier_of_match
    {| matched_text := "Symbol(Symbol." +:+ x +:+ ")"; group1 := x |}
  = Thrown message ->
  generateSnapshot escape identifier_of_match
    (VSymbol id (Some ("Symbol." +:+ x))) {| serialized := false |}
  = Thrown message.
Proof.
  intros Hx Hline Hthrows. unfold generateSnapshot.
  cbn [serialized generateAstFromValue].
  unfold getSymbolAstFromStandardSymbol.
  by rewrite symbol_pattern_exec_well_known, Hthrows.
Qed.

Lemma generate_symbol_well_known_witness :
  generateSnapshot (fun s => s) identifier_throws
    (VSymbol 0 (Some "Symbol.asyncIterator")) {| serialized := false |}
  = Thrown "TypeError: Property name expected type of string but got array".
Proof.
  apply (generate_symbol_well_known (fun s => s) identifier_throws 0
           "asyncIterator");
    [discriminate | reflexivity | reflexivity].
Defined.

Lemma match_here_sound s m :
  match_here s = Some m ->
  matched_text m = symbol_prefix +:+ group1 m +:+ ")"
  /\ group1 m <> EmptyString /\ on_one_line (group1 m) = true
  /\ exists rest, s = matched_text m +:+ rest.
Proof.
  unfold match_here.
  destruct (strip_prefix symbol_prefix s) as [r|] eqn:Hp; [|discriminate].
  destruct (dot_plus_close r) as [cap|] eqn:Hd; [|discriminate].
  intros [= <-]. cbn [matched_text group1].
  apply strip_prefix_Some in Hp. apply dot_plus_close_sound in Hd
    as (Hne & Hline & rest & ->).
  repeat split; try done. exists rest. rewrite Hp.
  by rewrite !append_assoc.
Qed.

(** What a match of the pattern is: a part of the string that reads
    [Symbol(Symbol.], a non-empty group on one line, and a closing
    parenthesis. *)
Theorem symbol_pattern_exec_sound (s : string) (m : RegExpExecArray) :
  symbol_pattern_exec s = Some m ->
  matched_text m = "Symbol(Symbol." +:+ group1 m +:+ ")"
  /\ group1 m <> EmptyString
  /\ on_one_line (group1 m) = true
  /\ exists before after, s = before +:+ matched_text m +:+ after.
Proof.
  induction s as [|c s IH]; cbn [symbol_pattern_exec].
  - destruct (match_here EmptyString) as [m'|] eqn:Hm; [|discriminate].
    intros [= <-]. apply match_here_sound in Hm as (H1 & H2 & H3 & rest & H4).
    repeat split; try done. by exists EmptyString, rest.
  - destruct (match_here (String c s)) as [m'|] eqn:Hm.
    + intros [= <-].
      apply match_here_sound in Hm as (H1 & H2 & H3 & rest & H4).
      repeat split; try done. by exists EmptyString, rest.
    + intros H. destruct (IH H) as (H1 & H2 & H3 & before & after & ->).
      repeat split; try done. by exists (String c before), after.
Qed.

Lemma symbol_pattern_exec_sound_witness :
  "Symbol(Symbol.a) and (b))" = "Symbol(Symbol." +:+ "a) and (b)" +:+ ")"
  /\ "a) and (b)" <> EmptyString
  /\ on_one_line "a) and (b)" = true
  /\ exists before after,
      "Symbol(see Symbol(Symbol.a) and (b))"
      = before +:+ "Symbol(Symbol.a) and (b))" +:+ after.
Proof.
  apply (symbol_pattern_exec_sound "Symbol(see Symbol(Symbol.a) and (b))"
           {| matched_text := "Symbol(Symbol.a) and (b))";
              group1 := "a) and (b)" |}).
  reflexivity.
Defined.

End LiteralMoreFacts.

(* ===================================================================== *)
(** * Further properties of the snapshot state *)
(* ===================================================================== *)

Module StateMoreFacts.
Import Js State StateSamples StateMore.

Section Decision.
Variable U : Utils.

Ltac open_decision s3 :=
  destruct s3 as [cs dirty idx u data path inl unch pp a ex' m un up];
  unfold write_or_report, _addSnapshot, totals, incr_added, incr_matched,
    incr_unmatched, incr_updated, set_totals, set_dirty, set_snapshotData,
    set_inlineSnapshots;
  cbn [_counters _dirty _index _updateSnapshot _snapshotData _snapshotPath
       _inlineSnapshots _uncheckedKeys _prettierPath added expand matched
       unmatched updated].

(** What the decision never touches, and what it returns. *)
Lemma write_or_report_frame o ex n k v e p has s3 :
  let '(r, s') := write_or_report U o ex n k v e p has s3 in
  _counters s' = _counters s3
  /\ _uncheckedKeys s' = _uncheckedKeys s3
  /\ _updateSnapshot s' = _updateSnapshot s3
  /\ match r with
     | Returned x => count x = n /\ ret_key x = k /\ hasSnapshot x = has
     | Thrown _ => True
     end.
Proof.
  open_decision s3.
  destruct u, has, p, (isInline o), ex, (topFrame U (error o)),
    (opt_serialized o), (removeExtraLineBreaks_of U v),
    (removeExtraLineBreaks_of U e);
    cbn; repeat split.
Qed.

(** The decision leaves the paths alone. *)
Lemma write_or_report_path o ex n k v e p has s3 :
  _snapshotPath (write_or_report U o ex n k v e p has s3).2 = _snapshotPath s3.
Proof.
  open_decision s3.
  by destruct u, has, p, (isInline o), ex, (topFrame U (error o)),
    (opt_serialized o), (removeExtraLineBreaks_of U v),
    (removeExtraLineBreaks_of U e).
Qed.

(** The mapping and the queue after the decision, returned or thrown:
    an inline call leaves the mapping, an external one the queue. *)
Lemma write_or_report_isolation o ex n k v e p has s3 :
  let '(r, s') := write_or_report U o ex n k v e p has s3 in
  if isInline o then _snapshotData s' = _snapshotData s3
  else _inlineSnapshots s' = _inlineSnapshots s3.
Proof.
  open_decision s3.
  destruct u, has, p, (isInline o), ex, (topFrame U (error o)),
    (opt_serialized o), (removeExtraLineBreaks_of U v),
    (removeExtraLineBreaks_of U e);
    cbn; repeat split; eauto.
Qed.

(** When the decision throws: in [_addSnapshot], for an inline record
    without a frame, or in the report of a mismatch, where the helper
    throws on the compared or on the expected value. *)
Lemma write_or_report_thrown o ex n k v e p has s3 msg s4 :
  write_or_report U o ex n k v e p has s3 = (Thrown msg, s4) ->
  _inlineSnapshots s4 = _inlineSnapshots s3
  /\ _snapshotData s4 = _snapshotData s3
  /\ ((msg = frame_message
       /\ isInline o = true /\ topFrame U (error o) = None
       /\ _updateSnapshot s3 <> UpdateNone
       /\ _dirty s4 = true)
      \/ (opt_serialized o = true /\ p = false
          /\ _updateSnapshot s3 <> UpdateAll
          /\ _dirty s4 = _dirty s3
          /\ totals s4
             = (added s3, matched s3, unmatched s3 + 1, updated s3)
          /\ (removeExtraLineBreaks_of U v = Thrown msg
              \/ has = true /\ removeExtraLineBreaks_of U e = Thrown msg))).
Proof.
  open_decision s3.
  destruct u, has, p, (isInline o), ex, (topFrame U (error o)),
    (opt_serialized o), (removeExtraLineBreaks_of U v) eqn:Hv,
    (removeExtraLineBreaks_of U e) eqn:He;
    cbn; intros ?; simplify_eq; (split; [done|]); (split; [done|]);
    first [ left; repeat split; done
          | right; repeat split; first [done | by left | by right] ].
Qed.

Lemma write_or_report_all o ex n k v e p has s3 :
  _updateSnapshot s3 = UpdateAll ->
  match write_or_report U o ex n k v e p has s3 with
  | (Returned r, s') =>
      pass r = true
      /\ totals s' =
           (if p then (added s3, matched s3 + 1, unmatched s3, updated s3)
            else if has
                 then (added s3, matched s3, unmatched s3, updated s3 + 1)
                 else (added s3 + 1, matched s3, unmatched s3, updated s3))
  | (Thrown _, _) =>
      isInline o = true /\ p = false /\ topFrame U (error o) = None
  end.
Proof.
  intros Hu. open_decision s3. cbn in Hu. subst u.
  destruct has, p, (isInline o), ex, (topFrame U (error o));
    cbn; repeat split.
Qed.

Lemma write_or_report_all_external o ex n k v e p has s3 :
  _updateSnapshot s3 = UpdateAll -> isInline o = false ->
  exists r s',
    write_or_report U o ex n k v e p has s3 = (Returned r, s')
    /\ pass r = true
    /\ _snapshotData s' =
         (if p then _snapshotData s3 else <[k := v]> (_snapshotData s3))
    /\ _dirty s' = (_dirty s3 || negb p).
Proof.
  intros Hu Hin. open_decision s3. cbn in Hu. subst u. rewrite Hin.
  destruct has, p, ex; cbn; do 2 eexists;
    rewrite ?orb_true_r, ?orb_false_r; repeat split.
Qed.

Lemma write_or_report_new_no_file o n k v e p has s3 :
  _updateSnapshot s3 = UpdateNew -> isInline o = false ->
  exists r s',
    write_or_report U o false n k v e p has s3 = (Returned r, s')
    /\ pass r = true
    /\ _snapshotData s' = <[k := v]> (_snapshotData s3)
    /\ _dirty s' = true
    /\ totals s' = (added s3 + 1, matched s3, unmatched s3, updated s3).
Proof.
  intros Hu Hin. open_decision s3. cbn in Hu. subst u. rewrite Hin.
  destruct has, p; cbn; do 2 eexists; repeat split.
Qed.

Lemma write_or_report_new_existing o ex n k v e p s3 :
  _updateSnapshot s3 = UpdateNew -> isInline o || ex = true ->
  (write_or_report U o ex n k v e p true s3).2
  = (if p then incr_matched s3 else incr_unmatched s3)
  /\ match (write_or_report U o ex n k v e p true s3).1 with
     | Returned r => pass r = p
     | Thrown m =>
         opt_serialized o = true /\ p = false
         /\ (removeExtraLineBreaks_of U v = Thrown m
             \/ removeExtraLineBreaks_of U e = Thrown m)
     end
  /\ (p = true \/ opt_serialized o = false
      \/ (forall m, removeExtraLineBreaks_of U v <> Thrown m)
         /\ (forall m, removeExtraLineBreaks_of U e <> Thrown m) ->
      exists r, (write_or_report U o ex n k v e p true s3).1 = Returned r).
Proof.
  intros Hu Hper. open_decision s3. cbn in Hu. subst u. rewrite Hper.
  destruct p, (opt_serialized o),
    (removeExtraLineBreaks_of U v) as [av|mv] eqn:Hv,
    (removeExtraLineBreaks_of U e) as [ae|me] eqn:He; cbn.
  all: split; [reflexivity|].
  all: split; [first [reflexivity | by auto]|].
  all: intros [Hp|[Hser|[Hnv Hne]]]; try discriminate.
  all: first [by eexists | by destruct (Hnv mv) | by destruct (Hne me)].
Qed.

(** The helper returns on a string. *)
Lemma removeExtraLineBreaks_of_string e m :
  typeof e = TString -> removeExtraLineBreaks_of U e <> Thrown m.
Proof. destruct e; cbn; discriminate. Qed.

Lemma write_or_report_new_inline o ex n k v e p s3 f :
  _updateSnapshot s3 = UpdateNew -> isInline o = true ->
  topFrame U (error o) = Some f ->
  exists r s',
    write_or_report U o ex n k v e p false s3 = (Returned r, s')
    /\ pass r = true
    /\ _inlineSnapshots s' =
         _inlineSnapshots s3
           ++ [{| frame := f; serialized := opt_serialized o; snapshot := v |}]
    /\ _dirty s' = true
    /\ totals s' = (added s3 + 1, matched s3, unmatched s3, updated s3).
Proof.
  intros Hu Hin Hf. open_decision s3. cbn in Hu. subst u. rewrite Hin, Hf.
  cbn. do 2 eexists. repeat split.
Qed.
(** The mapping after the decision: as it was, or with the compared
    value under the key. *)
Lemma write_or_report_data o ex n k v e p has s3 :
  let s' := (write_or_report U o ex n k v e p has s3).2 in
  _snapshotData s' = _snapshotData s3
  \/ _snapshotData s' = <[k := v]> (_snapshotData s3).
Proof.
  open_decision s3.
  destruct u, has, p, (isInline o), ex, (topFrame U (error o)),
    (opt_serialized o), (removeExtraLineBreaks_of U v),
    (removeExtraLineBreaks_of U e);
    cbn; auto.
Qed.
End Decision.

(** *** [match] under policy [all] *)

(** Under policy [all] a [match] call that returns passes, and counts as
    [matched] when the comparison passed, as [updated] when it failed
    against an existing snapshot and as [added] when there was none; it
    throws only on a failed inline comparison whose frame cannot be
    inferred. *)
Theorem match_all_never_fails (U : Utils) (o : SnapshotMatchOptions)
    (existsSync : bool) (s : SnapshotState) :
  _updateSnapshot s = UpdateAll ->
  match match_ U o existsSync s with
  | (Returned r, s') =>
      pass r = true
      /\ totals s' =
           (if call_pass U o s
            then (added s, matched s + 1, unmatched s, updated s)
            else if call_hasSnapshot U o s
                 then (added s, matched s, unmatched s, updated s + 1)
                 else (added s + 1, matched s, unmatched s, updated s))
  | (Thrown _, _) =>
      isInline o = true /\ call_pass U o s = false
      /\ topFrame U (error o) = None
  end.
Proof.
  intros Hu. rewrite StateFacts.match_stages.
  apply (write_or_report_all U o existsSync (call_count o s)
           (call_key U o s) (compared_value U o) (call_expected U o s)
           (call_pass U o s) (call_hasSnapshot U o s)
           (before_decision U o s) Hu).
Qed.

Lemma match_all_never_fails_witness :
  match match_ sample_utils call_t true all_loaded with
  | (Returned r, s') => pass r = true /\ totals s' = (0, 0, 0, 1)
  | (Thrown _, _) => True
  end.
Proof.
  apply (match_all_never_fails sample_utils call_t true all_loaded).
  reflexivity.
Defined.

(** Under policy [all] an external [match] call returns, passes, and
    leaves the compared value under its key in the mapping; the state
    becomes dirty exactly when the comparison failed. *)
Theorem match_all_external (U : Utils) (o : SnapshotMatchOptions)
    (existsSync : bool) (s : SnapshotState) :
  _updateSnapshot s = UpdateAll ->
  isInline o = false ->
  exists r s',
    match_ U o existsSync s = (Returned r, s')
    /\ pass r = true
    /\ _snapshotData s'
       = <[call_key U o s := compared_value U o]> (_snapshotData s)
    /\ _dirty s' = (_dirty s || negb (call_pass U o s)).
Proof.
  intros Hu Hin. rewrite StateFacts.match_stages.
  destruct (write_or_report_all_external U o existsSync (call_count o s)
              (call_key U o s) (compared_value U o) (call_expected U o s)
              (call_pass U o s) (call_hasSnapshot U o s)
              (before_decision U o s) Hu Hin)
    as (r & s' & -> & Hpass & Hdata & Hdirty).
  exists r, s'. repeat split; [done| |done].
  rewrite Hdata. cbn [before_decision _snapshotData]. rewrite Hin.
  by destruct (call_pass U o s).
Qed.

Lemma match_all_external_witness :
  exists r s',
    match_ sample_utils call_t true all_loaded = (Returned r, s')
    /\ pass r = true
    /\ _snapshotData s'
       = <["t 1" := VString (quoted "v")]> (_snapshotData all_loaded)
    /\ _dirty s' = true.
Proof.
  apply (match_all_external sample_utils call_t true all_loaded);
    reflexivity.
Defined.

(** *** [match] under policy [new] *)

(** Under policy [new], as long as the companion file does not exist, an
    external [match] call never compares for a verdict: whether or not
    the mapping has the key, the value is written under it, [added]
    goes up by one and the call passes. *)
Theorem match_new_without_file (U : Utils) (o : SnapshotMatchOptions)
    (s : SnapshotState) :
  _updateSnapshot s = UpdateNew ->
  isInline o = false ->
  exists r s',
    match_ U o false s = (Returned r, s')
    /\ pass r = true
    /\ _snapshotData s'
       = <[call_key U o s := compared_value U o]> (_snapshotData s)
    /\ _dirty s' = true
    /\ totals s' = (added s + 1, matched s, unmatched s, updated s).
Proof.
  intros Hu Hin. rewrite StateFacts.match_stages.
  destruct (write_or_report_new_no_file U o (call_count o s)
              (call_key U o s) (compared_value U o) (call_expected U o s)
              (call_pass U o s) (call_hasSnapshot U o s)
              (before_decision U o s) Hu Hin)
    as (r & s' & -> & Hpass & Hdata & Hdirty & Htot).
  exists r, s'. repeat split; [done| |done|done].
  rewrite Hdata. cbn [before_decision _snapshotData].
  destruct (call_pass U o s && negb (isInline o)); [|done].
  apply insert_insert_eq.
Qed.

Lemma match_new_without_file_witness :
  exists r s',
    match_ sample_utils call_t false
           (loaded UpdateNew {["t 1" := VString "old"]})
    = (Returned r, s')
    /\ pass r = true
    /\ _snapshotData s' = <["t 1" := VString (quoted "v")]> {["t 1" := VString "old"]}
    /\ _dirty s' = true
    /\ totals s' = (1, 0, 0, 0).
Proof.
  exact (match_new_without_file sample_utils call_t
           (loaded UpdateNew {["t 1" := VString "old"]}) eq_refl eq_refl).
Defined.

(** Under policy [new], a call that has a snapshot which is persisted
    (an inline one, or an external one with the companion file on disk)
    is only compared: [matched] or [unmatched] goes up by one, as the
    comparison says, and neither the dirty flag nor the queue of inline
    records changes, whether the call returns or throws.  When it
    returns, its verdict is the comparison; it returns whenever the
    comparison passes, the call is in raw mode or the expected value is
    a string; and what it throws is the error of
    [removeExtraLineBreaks] on an expected value that is not a string,
    after a serialized mismatch. *)
Theorem match_new_existing_compares (U : Utils) (o : SnapshotMatchOptions)
    (existsSync : bool) (s : SnapshotState) :
  _updateSnapshot s = UpdateNew ->
  call_hasSnapshot U o s = true ->
  isInline o || existsSync = true ->
  totals (match_ U o existsSync s).2
  = (if call_pass U o s
     then (added s, matched s + 1, unmatched s, updated s)
     else (added s, matched s, unmatched s + 1, updated s))
  /\ _dirty (match_ U o existsSync s).2 = _dirty s
  /\ _inlineSnapshots (match_ U o existsSync s).2 = _inlineSnapshots s
  /\ match (match_ U o existsSync s).1 with
     | Returned r => pass r = call_pass U o s
     | Thrown m =>
         call_pass U o s = false /\ opt_serialized o = true
         /\ typeof (call_expected U o s) <> TString
         /\ removeExtraLineBreaks_other U (call_expected U o s) = Thrown m
     end
  /\ (call_pass U o s = true \/ opt_serialized o = false
      \/ typeof (call_expected U o s) = TString ->
      exists r, (match_ U o existsSync s).1 = Returned r).
Proof.
  intros Hu Hhas Hper. rewrite StateFacts.match_stages, Hhas.
  destruct (write_or_report_new_existing U o existsSync (call_count o s)
              (call_key U o s) (compared_value U o) (call_expected U o s)
              (call_pass U o s) (before_decision U o s) Hu Hper)
    as (Hstate & Hresult & Hreturns).
  rewrite Hstate.
  split; [by destruct (call_pass U o s)|].
  split; [by destruct (call_pass U o s)|].
  split; [by destruct (call_pass U o s)|].
  split.
  - destruct (write_or_report _ _ _ _ _ _ _ _ _ _).1 as [r|m]; [done|].
    destruct Hresult as (Hser & Hp & [Hv|He]).
    + by rewrite StateFacts.compared_value_text in Hv.
    + apply StateFacts.removeExtraLineBreaks_of_thrown in He as [Hty He].
      done.
  - intros [Hp|[Hser|Hstr]]; apply Hreturns; [by left|by right; left|].
    destruct (opt_serialized o) eqn:Hser; [|by right; left].
    right; right. split; intros m.
    + by rewrite StateFacts.compared_value_text.
    + by apply removeExtraLineBreaks_of_string.
Qed.

Lemma match_new_existing_compares_witness :
  totals (match_ sample_utils call_t true new_loaded).2 = (0, 1, 0, 0)
  /\ _dirty (match_ sample_utils call_t true new_loaded).2 = false
  /\ _inlineSnapshots (match_ sample_utils call_t true new_loaded).2 = []
  /\ match (match_ sample_utils call_t true new_loaded).1 with
     | Returned r => pass r = true
     | Thrown m =>
         true = false /\ true = true
         /\ typeof (VString (StateSamples.quoted "v")) <> TString
         /\ removeExtraLineBreaks_other sample_utils
              (VString (StateSamples.quoted "v")) = Thrown m
     end
  /\ (true = true \/ true = false
      \/ typeof (VString (StateSamples.quoted "v")) = TString ->
      exists r, (match_ sample_utils call_t true new_loaded).1 = Returned r).
Proof.
  apply (match_new_existing_compares sample_utils call_t true new_loaded);
    reflexivity.
Defined.

(** Under policy [new], an inline call without a snapshot whose frame
    can be inferred queues one record, with that frame, the serialized
    flag and the compared value, at the end of the queue; it passes and
    counts as [added]. *)
Theorem match_new_inline_queues (U : Utils) (o : SnapshotMatchOptions)
    (existsSync : bool) (s : SnapshotState) (f : Frame) :
  _updateSnapshot s = UpdateNew ->
  isInline o = true ->
  hasInlineSnapshot o = false ->
  topFrame U (error o) = Some f ->
  exists r s',
    match_ U o existsSync s = (Returned r, s')
    /\ pass r = true
    /\ _inlineSnapshots s' =
         _inlineSnapshots s
           ++ [{| frame := f; serialized := opt_serialized o;
                  snapshot := compared_value U o |}]
    /\ _snapshotData s' = _snapshotData s
    /\ totals s' = (added s + 1, matched s, unmatched s, updated s).
Proof.
  intros Hu Hin Hhas Hf. rewrite StateFacts.match_stages.
  assert (call_hasSnapshot U o s = false) as ->.
  { unfold call_hasSnapshot. by rewrite Hin. }
  pose proof (write_or_report_isolation U o existsSync (call_count o s)
                (call_key U o s) (compared_value U o) (call_expected U o s)
                (call_pass U o s) false (before_decision U o s)) as Hiso.
  destruct (write_or_report_new_inline U o existsSync (call_count o s)
              (call_key U o s) (compared_value U o) (call_expected U o s)
              (call_pass U o s) (before_decision U o s) f Hu Hin Hf)
    as (r & s' & Heq & Hpass & Hq & _ & Htot).
  rewrite Heq in Hiso |- *. rewrite Hin in Hiso.
  exists r, s'. repeat split; try done.
  rewrite Hiso. cbn [before_decision _snapshotData].
  by rewrite Hin, andb_false_r.
Qed.

Lemma match_new_inline_queues_witness :
  exists r s',
    match_ sample_utils inline_call false (loaded UpdateNew ∅)
    = (Returned r, s')
    /\ pass r = true
    /\ _inlineSnapshots s' =
         [{| frame := {| file := "a.test.js"; line := Some 3%Z;
                         column := Some 13%Z |};
             serialized := true; snapshot := VString (quoted "v") |}]
    /\ _snapshotData s' = ∅
    /\ totals s' = (1, 0, 0, 0).
Proof.
  apply (match_new_inline_queues sample_utils inline_call false
           (loaded UpdateNew ∅)); reflexivity.
Defined.

(** *** Bookkeeping of every call *)

(** A [match] call, whether it returns or throws, sets the counter of
    its test to the count it used, one more than before; the result
    carries that count and the resolved key; the next call of the same
    test gets the next count, and the calls of other tests are not
    affected. *)
Theorem match_occurrence_counter (U : Utils) (o : SnapshotMatchOptions)
    (existsSync : bool) (s : SnapshotState) :
  let '(r, s') := match_ U o existsSync s in
  _counters s' = <[testName o := call_count o s]> (_counters s)
  /\ match r with
     | Returned x => count x = call_count o s /\ ret_key x = call_key U o s
     | Thrown _ => True
     end
  /\ forall o',
       call_count o' s' =
       if decide (testName o' = testName o) then call_count o s + 1
       else call_count o' s.
Proof.
  rewrite StateFacts.match_stages.
  pose proof (write_or_report_frame U o existsSync (call_count o s)
                (call_key U o s) (compared_value U o) (call_expected U o s)
                (call_pass U o s) (call_hasSnapshot U o s)
                (before_decision U o s)) as H.
  destruct (write_or_report _ _ _ _ _ _ _ _ _ _) as [r s'].
  destruct H as (Hc & _ & _ & Hr). cbn [before_decision _counters] in Hc.
  split; [done|]. split; [destruct r; tauto|].
  intros o'. unfold call_count at 1. rewrite Hc.
  destruct (decide (testName o' = testName o)) as [->|Hne].
  - by rewrite lookup_insert_eq.
  - by rewrite lookup_insert_ne.
Qed.

Lemma fail_result (U : Utils) (o : SnapshotMatchOptions)
    (_received : value) (s : SnapshotState) :
  let '(k, s') := fail U (testName o) _received (key o) s in
  k = call_key U o s
  /\ _counters s' = <[testName o := call_count o s]> (_counters s)
  /\ _uncheckedKeys s' = _uncheckedKeys s ∖ {[call_key U o s]}
  /\ _snapshotData s' = _snapshotData s
  /\ _dirty s' = _dirty s
  /\ _inlineSnapshots s' = _inlineSnapshots s.
Proof. destruct s. repeat split. Qed.

(** [fail] does the bookkeeping of an external [match] call with the
    same test name and key: it leaves the occurrence counters and the
    unchecked set as that call leaves them, returned or thrown, and it
    returns the key that call returns when it returns; unlike the call,
    [fail] never touches the mapping, the dirty flag or the queue. *)
Theorem fail_bookkeeping (U : Utils) (o : SnapshotMatchOptions)
    (_received : value) (existsSync : bool) (s : SnapshotState) :
  isInline o = false ->
  _counters (fail U (testName o) _received (key o) s).2
  = _counters (match_ U o existsSync s).2
  /\ _uncheckedKeys (fail U (testName o) _received (key o) s).2
     = _uncheckedKeys (match_ U o existsSync s).2
  /\ (forall x,
        (match_ U o existsSync s).1 = Returned x ->
        ret_key x = (fail U (testName o) _received (key o) s).1)
  /\ _snapshotData (fail U (testName o) _received (key o) s).2
     = _snapshotData s
  /\ _dirty (fail U (testName o) _received (key o) s).2 = _dirty s
  /\ _inlineSnapshots (fail U (testName o) _received (key o) s).2
     = _inlineSnapshots s.
Proof.
  intros Hin.
  pose proof (fail_result U o _received s) as Hf.
  destruct (fail U (testName o) _received (key o) s) as [k sf].
  destruct Hf as (Hk & Hc & Hu & Hd & Hdi & Hq). cbn [fst snd].
  rewrite StateFacts.match_stages.
  pose proof (write_or_report_frame U o existsSync (call_count o s)
                (call_key U o s) (compared_value U o) (call_expected U o s)
                (call_pass U o s) (call_hasSnapshot U o s)
                (before_decision U o s)) as Hfr.
  destruct (write_or_report _ _ _ _ _ _ _ _ _ _) as [r sm].
  destruct Hfr as (Hc' & Hu' & _ & Hr). cbn [fst snd].
  split; [by rewrite Hc, Hc'|].
  split.
  { rewrite Hu, Hu'. cbn [before_decision _uncheckedKeys].
    rewrite Hin. by cbn [andb]. }
  split; [|done].
  intros x ->. destruct Hr as (_ & Hkey & _). congruence.
Qed.

Lemma fail_bookkeeping_witness :
  _counters (fail sample_utils "t" (VString "v") None all_loaded).2
  = _counters (match_ sample_utils call_t true all_loaded).2
  /\ _uncheckedKeys (fail sample_utils "t" (VString "v") None all_loaded).2
     = _uncheckedKeys (match_ sample_utils call_t true all_loaded).2
  /\ (forall x,
        (match_ sample_utils call_t true all_loaded).1 = Returned x ->
        ret_key x = (fail sample_utils "t" (VString "v") None all_loaded).1)
  /\ _snapshotData (fail sample_utils "t" (VString "v") None all_loaded).2
     = _snapshotData all_loaded
  /\ _dirty (fail sample_utils "t" (VString "v") None all_loaded).2
     = _dirty all_loaded
  /\ _inlineSnapshots (fail sample_utils "t" (VString "v") None all_loaded).2
     = _inlineSnapshots all_loaded.
Proof.
  exact (fail_bookkeeping sample_utils call_t (VString "v") true all_loaded
           eq_refl).
Defined.

Lemma match_uncheckedKeys (U : Utils) (o : SnapshotMatchOptions)
    (existsSync : bool) (s : SnapshotState) :
  _uncheckedKeys (match_ U o existsSync s).2 =
  if isInline o
     && negb (is_undefined (data_get (_snapshotData s) (call_key U o s)))
  then _uncheckedKeys s
  else _uncheckedKeys s ∖ {[call_key U o s]}.
Proof.
  rewrite StateFacts.match_stages.
  pose proof (write_or_report_frame U o existsSync (call_count o s)
                (call_key U o s) (compared_value U o) (call_expected U o s)
                (call_pass U o s) (call_hasSnapshot U o s)
                (before_decision U o s)) as H.
  destruct (write_or_report _ _ _ _ _ _ _ _ _ _) as [r s'].
  destruct H as (_ & Hu & _). cbn [snd]. rewrite Hu.
  cbn [before_decision _uncheckedKeys].
  by destruct (isInline o && negb (is_undefined _)).
Qed.

(** After a [match] call, returned or thrown, the resolved key is out
    of the unchecked set, except for an inline call made while the
    mapping holds a value under that key: then the set is as it was. *)
Theorem match_unchecked (U : Utils) (o : SnapshotMatchOptions)
    (existsSync : bool) (s : SnapshotState) :
  _uncheckedKeys (match_ U o existsSync s).2 =
  if isInline o
     && negb (is_undefined (data_get (_snapshotData s) (call_key U o s)))
  then _uncheckedKeys s
  else _uncheckedKeys s ∖ {[call_key U o s]}.
Proof.
  pose proof (write_or_report_frame U o existsSync (call_count o s)
                (call_key U o s) (compared_value U o) (call_expected U o s)
                (call_pass U o s) (call_hasSnapshot U o s)
                (before_decision U o s)) as H.
  rewrite <- StateFacts.match_stages in H.
  destruct (match_ U o existsSync s) as [r s'].
  destruct H as (_ & Hu & _). cbn [snd]. rewrite Hu.
  cbn [before_decision _uncheckedKeys].
  by destruct (isInline o && negb (is_undefined _)).
Qed.

(** Whether it returns or throws, an inline [match] call never
    changes the external mapping and an external one never changes the
    queue of inline records. *)
Theorem match_isolation (U : Utils) (o : SnapshotMatchOptions)
    (existsSync : bool) (s : SnapshotState) :
  if isInline o
  then _snapshotData (match_ U o existsSync s).2 = _snapshotData s
  else _inlineSnapshots (match_ U o existsSync s).2 = _inlineSnapshots s.
Proof.
  rewrite StateFacts.match_stages.
  pose proof (write_or_report_isolation U o existsSync (call_count o s)
                (call_key U o s) (compared_value U o) (call_expected U o s)
                (call_pass U o s) (call_hasSnapshot U o s)
                (before_decision U o s)) as H.
  destruct (write_or_report _ _ _ _ _ _ _ _ _ _) as [r s']. cbn [snd].
  destruct (isInline o) eqn:Hin; [|done].
  rewrite H. cbn [before_decision _snapshotData].
  by rewrite Hin, andb_false_r.
Qed.

(** A [match] call throws in two cases only, and in both nothing has
    been queued or written to the mapping.  An inline call, under a
    policy other than [none], whose stack gives no frame throws the
    frame error, with the dirty flag set all the same.  A serialized
    call that has a snapshot, does not match it and is not under policy
    [all] throws the error of [removeExtraLineBreaks] on an expected
    value that is not a string, with [unmatched] counted and the dirty
    flag as it was. *)
Theorem match_throws (U : Utils) (o : SnapshotMatchOptions)
    (existsSync : bool) (s s' : SnapshotState) (msg : string) :
  match_ U o existsSync s = (Thrown msg, s') ->
  _inlineSnapshots s' = _inlineSnapshots s
  /\ _snapshotData s' = _snapshotData s
  /\ ((msg = frame_message
       /\ isInline o = true /\ topFrame U (error o) = None
       /\ _updateSnapshot s <> UpdateNone
       /\ _dirty s' = true)
      \/ (opt_serialized o = true
          /\ call_hasSnapshot U o s = true
          /\ call_pass U o s = false
          /\ _updateSnapshot s <> UpdateAll
          /\ typeof (call_expected U o s) <> TString
          /\ removeExtraLineBreaks_other U (call_expected U o s) = Thrown msg
          /\ _dirty s' = _dirty s
          /\ totals s' = (added s, matched s, unmatched s + 1, updated s))).
Proof.
  rewrite StateFacts.match_stages. intros H.
  apply write_or_report_thrown in H as (Hq & Hdata & Hcase).
  split; [done|].
  destruct Hcase as [(Hm & Hin & Hf & Hu & Hd)
                    |(Hser & Hp & Hu & Hd & Htot & Hhelper)].
  - split; [|by left].
    rewrite Hdata. cbn [before_decision _snapshotData].
    by rewrite Hin, andb_false_r.
  - split.
    { rewrite Hdata. cbn [before_decision _snapshotData]. by rewrite Hp. }
    right. destruct Hhelper as [Hv|[Hhas He]].
    + by rewrite StateFacts.compared_value_text in Hv.
    + apply StateFacts.removeExtraLineBreaks_of_thrown in He as [Hty He].
      repeat split; done.
Qed.

Lemma match_throws_witness :
  _inlineSnapshots (match_ sample_utils call_t true null_loaded).2 = []
  /\ _snapshotData (match_ sample_utils call_t true null_loaded).2
     = {["t 1" := VNull]}
  /\ (("TypeError: Cannot read property 'length' of null" = frame_message
       /\ isInline call_t = true /\ topFrame sample_utils (error call_t) = None
       /\ _updateSnapshot null_loaded <> UpdateNone
       /\ _dirty (match_ sample_utils call_t true null_loaded).2 = true)
      \/ (opt_serialized call_t = true
          /\ call_hasSnapshot sample_utils call_t null_loaded = true
          /\ call_pass sample_utils call_t null_loaded = false
          /\ _updateSnapshot null_loaded <> UpdateAll
          /\ typeof (call_expected sample_utils call_t null_loaded)
             <> TString
          /\ removeExtraLineBreaks_other sample_utils
               (call_expected sample_utils call_t null_loaded)
             = Thrown "TypeError: Cannot read property 'length' of null"
          /\ _dirty (match_ sample_utils call_t true null_loaded).2 = false
          /\ totals (match_ sample_utils call_t true null_loaded).2
             = (0, 0, 1, 0))).
Proof.
  apply (match_throws sample_utils call_t true null_loaded
           (match_ sample_utils call_t true null_loaded).2
           "TypeError: Cannot read property 'length' of null").
  vm_compute. reflexivity.
Defined.

(** *** Unchecked keys and [removeUncheckedKeys] *)

(** Deleting the keys of a set one by one. *)
Lemma set_fold_delete_lookup (data : gmap string value) (X : gset string) k :
  set_fold (fun key d => delete key d) data X !! k
  = if decide (k ∈ X) then None else data !! k.
Proof.
  pose (P := fun (r : gmap string value) (Y : gset string) =>
                r !! k = if decide (k ∈ Y) then None else data !! k).
  change (P (set_fold (fun key d => delete key d) data X) X).
  apply set_fold_ind_L; unfold P.
  - by rewrite decide_False by set_solver.
  - intros x Y r Hx IH.
    destruct (decide (k = x)) as [->|Hne].
    + rewrite lookup_delete_eq. by rewrite decide_True by set_solver.
    + rewrite lookup_delete_ne by done. rewrite IH.
      destruct (decide (k ∈ Y)).
      * by rewrite decide_True by set_solver.
      * by rewrite decide_False by set_solver.
Qed.

Lemma removeUncheckedKeys_lookup s k :
  _updateSnapshot s = UpdateAll ->
  _snapshotData (removeUncheckedKeys s) !! k
  = if decide (k ∈ _uncheckedKeys s) then None else _snapshotData s !! k.
Proof.
  intros Hu. unfold removeUncheckedKeys. rewrite Hu. cbn [is_all andb].
  destruct (Nat.eqb (size (_uncheckedKeys s)) 0) eqn:Hz; cbn [negb].
  - apply Nat.eqb_eq, size_empty_inv in Hz.
    rewrite decide_False; [done|]. intros Hin. by apply (Hz k) in Hin.
  - cbn. apply set_fold_delete_lookup.
Qed.

Lemma removeUncheckedKeys_dom s :
  _updateSnapshot s = UpdateAll ->
  dom (_snapshotData (removeUncheckedKeys s))
  = dom (_snapshotData s) ∖ _uncheckedKeys s.
Proof.
  intros Hu. apply set_eq. intros k.
  rewrite elem_of_difference, !elem_of_dom, removeUncheckedKeys_lookup by done.
  destruct (decide (k ∈ _uncheckedKeys s)); split.
  - by intros [? ?].
  - by intros [_ ?].
  - by intros ?.
  - by intros [? _].
Qed.

(** [removeUncheckedKeys] under policy [all] deletes from the mapping
    exactly the unchecked keys, keeps every other entry, empties the
    unchecked set and marks the state dirty if there was a key to
    delete; under the other policies it changes nothing. *)
Theorem removeUncheckedKeys_prunes (s : SnapshotState) :
  if is_all (_updateSnapshot s) then
    (forall k,
        _snapshotData (removeUncheckedKeys s) !! k
        = if decide (k ∈ _uncheckedKeys s) then None
          else _snapshotData s !! k)
    /\ _uncheckedKeys (removeUncheckedKeys s) = ∅
    /\ _dirty (removeUncheckedKeys s)
       = (_dirty s || negb (Nat.eqb (size (_uncheckedKeys s)) 0))
  else removeUncheckedKeys s = s.
Proof.
  destruct (is_all (_updateSnapshot s)) eqn:Hall.
  - assert (_updateSnapshot s = UpdateAll) as Hu
        by (by destruct (_updateSnapshot s)).
    split; [intros k; by apply removeUncheckedKeys_lookup|].
    unfold removeUncheckedKeys. rewrite Hall. cbn [andb].
    destruct (Nat.eqb (size (_uncheckedKeys s)) 0) eqn:Hz; cbn.
    + rewrite orb_false_r. split; [|done].
      apply Nat.eqb_eq in Hz. by apply size_empty_inv, leibniz_equiv in Hz.
    + by rewrite orb_true_r.
  - unfold removeUncheckedKeys. by rewrite Hall.
Qed.

(** In every state a run reaches, the unchecked keys are keys of the
    mapping. *)
Theorem reachable_unchecked_persisted (U : Utils) (s : SnapshotState) :
  reachable U s -> unchecked_persisted s.
Proof.
  unfold unchecked_persisted.
  induction 1 as [sp pp u e data dirty|o ex s _ IH|name rcv k0 s _ IH
                 |name s _ IH|s _ IH|s _ IH].
  - done.
  - rewrite match_uncheckedKeys.
    assert (dom (_snapshotData s)
              ⊆ dom (_snapshotData (match_ U o ex s).2)) as Hdom.
    { rewrite StateFacts.match_stages.
      pose proof (write_or_report_data U o ex (call_count o s)
                    (call_key U o s) (compared_value U o)
                    (call_expected U o s) (call_pass U o s)
                    (call_hasSnapshot U o s) (before_decision U o s)) as H.
      cbn zeta in H.
      assert (dom (_snapshotData s)
                ⊆ dom (_snapshotData (before_decision U o s))) as H3.
      { cbn [before_decision _snapshotData].
        destruct (call_pass U o s && negb (isInline o)); [|done].
        rewrite dom_insert_L. set_solver. }
      destruct H as [-> | ->]; [done|].
      rewrite dom_insert_L. set_solver. }
    destruct (isInline o && negb (is_undefined _)); set_solver.
  - destruct s. cbn in *. set_solver.
  - destruct s. cbn in *.
    intros k Hk. apply elem_of_filter in Hk as [_ Hk]. by apply IH.
  - unfold removeUncheckedKeys.
    destruct (is_all _ && negb (Nat.eqb (size (_uncheckedKeys s)) 0));
      [|done].
    cbn. set_solver.
  - by destruct s.
Qed.

Lemma reachable_unchecked_persisted_witness :
  unchecked_persisted (match_ sample_utils call_t true all_loaded).2.
Proof.
  apply (reachable_unchecked_persisted sample_utils
           (match_ sample_utils call_t true all_loaded).2).
  apply reach_match. apply reach_new.
Defined.

(** One external call under policy [all]: the policy stays, the key
    is checked and is in the mapping. *)
Lemma match_all_external_step U o ex s :
  _updateSnapshot s = UpdateAll -> isInline o = false ->
  exists r s',
    match_ U o ex s = (Returned r, s')
    /\ _updateSnapshot s' = UpdateAll
    /\ _uncheckedKeys s' = _uncheckedKeys s ∖ {[call_key U o s]}
    /\ dom (_snapshotData s') = {[call_key U o s]} ∪ dom (_snapshotData s).
Proof.
  intros Hu Hin.
  pose proof (match_uncheckedKeys U o ex s) as Hun. rewrite Hin in Hun.
  cbn [andb] in Hun.
  assert (_updateSnapshot (match_ U o ex s).2 = UpdateAll) as Hpol.
  { rewrite StateFacts.match_stages.
    pose proof (write_or_report_frame U o ex (call_count o s)
                  (call_key U o s) (compared_value U o)
                  (call_expected U o s) (call_pass U o s)
                  (call_hasSnapshot U o s) (before_decision U o s)) as H.
    destruct (write_or_report _ _ _ _ _ _ _ _ _ _) as [r s'].
    destruct H as (_ & _ & Hp & _). cbn [snd]. rewrite Hp. exact Hu. }
  rewrite StateFacts.match_stages in *.
  destruct (write_or_report_all_external U o ex (call_count o s)
              (call_key U o s) (compared_value U o) (call_expected U o s)
              (call_pass U o s) (call_hasSnapshot U o s)
              (before_decision U o s) Hu Hin)
    as (r & s' & Heq & _ & Hdata & _).
  rewrite Heq in *. cbn [snd] in *.
  exists r, s'. repeat split; try done.
  rewrite Hdata. cbn [before_decision _snapshotData]. rewrite Hin.
  destruct (call_pass U o s); cbn [andb negb]; by rewrite dom_insert_L.
Qed.

Lemma full_update_run_from U calls s (T : gset string) :
  _updateSnapshot s = UpdateAll ->
  Forall (fun c => isInline c.1 = false) calls ->
  dom (_snapshotData s) = _uncheckedKeys s ∪ T ->
  _uncheckedKeys s ## T ->
  exists s',
    run U calls s = (Returned tt, s')
    /\ _updateSnapshot s' = UpdateAll
    /\ dom (_snapshotData s') ∖ _uncheckedKeys s'
       = T ∪ list_to_set (run_keys U calls s).
Proof.
  revert s T. induction calls as [|[o ex] rest IH]; intros s T Hu Hext Hdom Hdis.
  - exists s. repeat split; try done. cbn. set_solver.
  - apply Forall_cons in Hext as [Hin Hext]. cbn [fst] in Hin.
    destruct (match_all_external_step U o ex s Hu Hin)
      as (r & s1 & Hm & Hu1 & Hun1 & Hdom1).
    destruct (IH s1 ({[call_key U o s]} ∪ T) Hu1 Hext) as (s' & Hrun & Hu' & Hfin).
    + rewrite Hdom1, Hun1, Hdom. apply set_eq. intros k.
      destruct (decide (k = call_key U o s)); set_solver.
    + rewrite Hun1. set_solver.
    + exists s'. cbn [run run_keys]. rewrite Hm, Hrun.
      repeat split; try done. rewrite Hfin. cbn. set_solver.
Qed.

(** The full-update run: from a freshly constructed state under policy
    [all], after any run of external [match] calls followed by
    [removeUncheckedKeys], the keys of the mapping are exactly the keys
    the calls resolved to. *)
Theorem full_update_run (U : Utils)
    (calls : list (SnapshotMatchOptions * bool))
    (snapshotPath prettierPath : string) (expand_opt dirty : bool)
    (data : gmap string value) :
  Forall (fun c => isInline c.1 = false) calls ->
  let s := new_state snapshotPath prettierPath UpdateAll expand_opt
                     data dirty in
  exists s',
    run U calls s = (Returned tt, s')
    /\ dom (_snapshotData (removeUncheckedKeys s'))
       = list_to_set (run_keys U calls s).
Proof.
  intros Hext s.
  destruct (full_update_run_from U calls s ∅) as (s' & Hrun & Hu & Hfin);
    [done|done|cbn; set_solver|set_solver|].
  exists s'. split; [done|].
  rewrite removeUncheckedKeys_dom by done. rewrite Hfin. set_solver.
Qed.

Lemma full_update_run_witness :
  exists s',
    run sample_utils [(call_t, true)] all_loaded = (Returned tt, s')
    /\ dom (_snapshotData (removeUncheckedKeys s')) = {["t 1"]}.
Proof.
  destruct (full_update_run sample_utils [(call_t, true)]
              "a.test.js.snap" "prettier" false false
              {["t 1" := VString "old"; "gone 1" := VString "x"]})
    as (s' & Hrun & Hdom).
  - repeat constructor.
  - exists s'. split; [exact Hrun|].
    rewrite Hdom. vm_compute. reflexivity.
Defined.

(** *** [save] *)

(** What [save] hands on is the state as it is in memory:
    [saveSnapshotFile] gets the mapping and the snapshot path, only when
    the mapping has a key; the patcher gets the queue and the path of
    prettier, only when the queue has a record, and [save] then throws
    the error of that call instead of returning.  The only other error
    [save] throws is the one of [saveSnapshotFile], that call being the
    one made.  When [save] returns, [saved] is reported exactly when the
    mapping went to [saveSnapshotFile], the one call made. *)
Theorem save_writes (s : SnapshotState) (existsSync : bool)
    (fileError : option string) (patcherError : string) :
  let '(result, events) := save s existsSync fileError patcherError in
  (forall data path,
      SaveSnapshotFile data path ∈ events ->
      data = _snapshotData s /\ path = _snapshotPath s
      /\ size (_snapshotData s) <> 0)
  /\ (forall queue prettier,
        SaveInlineSnapshots queue prettier ∈ events ->
        queue = _inlineSnapshots s /\ prettier = _prettierPath s
        /\ _inlineSnapshots s <> [] /\ result = Thrown patcherError)
  /\ (forall m,
        result = Thrown m ->
        (m = patcherError
         /\ SaveInlineSnapshots (_inlineSnapshots s) (_prettierPath s)
            ∈ events)
        \/ (fileError = Some m
            /\ events = [SaveSnapshotFile (_snapshotData s)
                                          (_snapshotPath s)]))
  /\ (forall status,
        result = Returned status ->
        (saved status = true
         <-> events = [SaveSnapshotFile (_snapshotData s)
                                        (_snapshotPath s)])).
Proof.
  unfold save.
  assert (length (_inlineSnapshots s) <> 0 -> _inlineSnapshots s <> [])
    as Hne by (intros Hq E; rewrite E in Hq; by cbn in Hq).
  destruct (Nat.eqb_spec (size (_snapshotData s)) 0) as [Hd|Hd];
    destruct (Nat.eqb_spec (length (_inlineSnapshots s)) 0) as [Hq|Hq];
    destruct (_dirty s || negb (Nat.eqb (size (_uncheckedKeys s)) 0));
    destruct existsSync; destruct (is_all (_updateSnapshot s));
    destruct fileError as [fe|];
    cbn [andb negb orb app].
  all: split; [intros ? ? Hin; set_unfold; naive_solver|].
  all: split; [intros ? ? Hin; set_unfold; naive_solver|].
  all: split; [intros ? Hin; set_unfold; naive_solver|].
  all: intros status [= <-]; cbn; split; first [done | discriminate].
Qed.

(** [save] removes the companion file in one situation only: policy
    [all], an empty mapping, a file that exists, and nothing to write;
    it then returns and reports [deleted].  Whenever [deleted] is
    reported, nothing was written. *)
Theorem save_unlink (s : SnapshotState) (existsSync : bool)
    (fileError : option string) (patcherError : string) :
  let '(result, events) := save s existsSync fileError patcherError in
  (forall path,
      UnlinkSync path ∈ events ->
      path = _snapshotPath s /\ _updateSnapshot s = UpdateAll
      /\ size (_snapshotData s) = 0 /\ existsSync = true
      /\ events = [UnlinkSync path]
      /\ result = Returned {| deleted := true; saved := false |})
  /\ (forall status,
        result = Returned status -> deleted status = true ->
        saved status = false /\ size (_snapshotData s) = 0
        /\ existsSync = true /\ forall e, e ∈ events -> is_write e = false).
Proof.
  unfold save.
  destruct (Nat.eqb_spec (size (_snapshotData s)) 0) as [Hd|Hd];
    destruct (Nat.eqb (length (_inlineSnapshots s)) 0);
    destruct (_dirty s || negb (Nat.eqb (size (_uncheckedKeys s)) 0));
    destruct existsSync; destruct (_updateSnapshot s);
    destruct fileError as [fe|];
    cbn; (split; [|try (intros ? [= <-]; discriminate)]).
  all: try (intros ? Hin; set_unfold; naive_solver).
  all: try discriminate.
  all: intros ? [= <-] _; repeat split; try done;
    intros ? Hin; set_unfold; naive_solver.
Qed.

(** *** Across methods *)

(** The snapshots of a test that was marked as checked (a test that
    did not run) survive the pruning of the unchecked keys, under every
    policy. *)
Theorem marked_test_survives (U : Utils) (name : string)
    (s : SnapshotState) (k : string) :
  keyToTestName U k = name ->
  _snapshotData
    (removeUncheckedKeys (markSnapshotsAsCheckedForTest U name s)) !! k
  = _snapshotData s !! k.
Proof.
  intros Hk. destruct (_updateSnapshot s) eqn:Hu.
  - rewrite removeUncheckedKeys_lookup by (by destruct s).
    rewrite decide_False; [by destruct s|].
    destruct s; cbn. intros Hin. apply elem_of_filter in Hin as [Hne _].
    done.
  - unfold removeUncheckedKeys.
    replace (_updateSnapshot (markSnapshotsAsCheckedForTest U name s))
      with UpdateNew by (by destruct s).
    by destruct s.
  - unfold removeUncheckedKeys.
    replace (_updateSnapshot (markSnapshotsAsCheckedForTest U name s))
      with UpdateNone by (by destruct s).
    by destruct s.
Qed.

Lemma marked_test_survives_witness :
  _snapshotData
    (removeUncheckedKeys
       (markSnapshotsAsCheckedForTest sample_utils "gone" all_loaded))
    !! "gone 1"
  = Some (VString "x").
Proof.
  rewrite (marked_test_survives sample_utils "gone" all_loaded "gone 1").
  - reflexivity.
  - reflexivity.
Defined.

(** A snapshot that an external [match] call writes goes to the
    companion file with the next [save]: after a call under policy
    [new] while the companion file does not exist, or a call under
    policy [all] whose comparison failed, the first call that [save]
    makes is [saveSnapshotFile], with the mapping that has the compared
    value under the call's key. *)
Theorem written_snapshot_is_saved (U : Utils) (o : SnapshotMatchOptions)
    (existsSync : bool) (s : SnapshotState) :
  isInline o = false ->
  (_updateSnapshot s = UpdateNew /\ existsSync = false)
  \/ (_updateSnapshot s = UpdateAll /\ call_pass U o s = false) ->
  exists r s',
    match_ U o existsSync s = (Returned r, s')
    /\ forall existsLater fileError patcherError,
         exists rest,
           (save s' existsLater fileError patcherError).2
           = SaveSnapshotFile
               (<[call_key U o s := compared_value U o]> (_snapshotData s))
               (_snapshotPath s) :: rest.
Proof.
  intros Hin Hcase.
  assert (exists r s',
             match_ U o existsSync s = (Returned r, s')
             /\ _snapshotData s'
                = <[call_key U o s := compared_value U o]> (_snapshotData s)
             /\ _dirty s' = true
             /\ _snapshotPath s' = _snapshotPath s)
    as (r & s' & Hm & Hd & Hdi & Hp).
  { pose proof (write_or_report_path U o existsSync (call_count o s)
                  (call_key U o s) (compared_value U o)
                  (call_expected U o s) (call_pass U o s)
                  (call_hasSnapshot U o s) (before_decision U o s))
      as Hpath.
    rewrite StateFacts.match_stages.
    destruct Hcase as [[Hu ->]|[Hu Hfail]].
    - destruct (write_or_report_new_no_file U o (call_count o s)
                  (call_key U o s) (compared_value U o)
                  (call_expected U o s) (call_pass U o s)
                  (call_hasSnapshot U o s) (before_decision U o s) Hu Hin)
        as (r & s' & Hw & _ & Hdata & Hdirty & _).
      rewrite Hw in Hpath. exists r, s'. split; [done|].
      split; [|by split].
      rewrite Hdata. cbn [before_decision _snapshotData].
      destruct (call_pass U o s && negb (isInline o)); [|done].
      apply insert_insert_eq.
    - destruct (write_or_report_all_external U o existsSync
                  (call_count o s) (call_key U o s) (compared_value U o)
                  (call_expected U o s) (call_pass U o s)
                  (call_hasSnapshot U o s) (before_decision U o s) Hu Hin)
        as (r & s' & Hw & _ & Hdata & Hdirty).
      rewrite Hw in Hpath. exists r, s'. split; [done|].
      rewrite Hfail in Hdata, Hdirty. cbn [negb] in Hdirty.
      rewrite orb_true_r in Hdirty. split; [|by split].
      rewrite Hdata. cbn [before_decision _snapshotData].
      by rewrite Hfail. }
  exists r, s'. split; [done|]. intros existsLater fileError patcherError.
  assert (Nat.eqb (size (_snapshotData s')) 0 = false) as Hsz.
  { apply Nat.eqb_neq. intros Hz. apply map_size_empty_inv in Hz.
    rewrite Hd in Hz. by apply insert_non_empty in Hz. }
  unfold save. rewrite Hdi, Hsz. cbn [orb andb negb]. rewrite Hd, Hp.
  destruct fileError, (Nat.eqb (length (_inlineSnapshots s')) 0); cbn;
    by eexists.
Qed.

Lemma written_snapshot_is_saved_witness :
  exists r s',
    match_ sample_utils call_t false (loaded UpdateNew ∅) = (Returned r, s')
    /\ forall existsLater fileError patcherError,
         exists rest,
           (save s' existsLater fileError patcherError).2
           = SaveSnapshotFile
               (<["t 1" := VString (quoted "v")]> ∅)
               (_snapshotPath (loaded UpdateNew ∅)) :: rest.
Proof.
  exact (written_snapshot_is_saved sample_utils call_t false
           (loaded UpdateNew ∅) eq_refl (or_introl (conj eq_refl eq_refl))).
Defined.

End StateMoreFacts.

(* ===================================================================== *)
(** * Further properties of the inline-snapshot patcher *)
(* ===================================================================== *)

Module PatcherMoreFacts.
Import Patcher PatcherSamples PatcherMore.

(** *** Grouping *)

Lemma group_set_keys {A} key (g : list A) object :
  map fst (group_set key g object)
  = if bool_decide (key ∈ map fst object) then map fst object
    else map fst object ++ [key].
Proof.
  induction object as [|[k g0] rest IH]; [done|]. cbn.
  destruct (String.eqb_spec k key) as [->|Hne]; cbn.
  - rewrite bool_decide_eq_true_2; [done|]. apply elem_of_cons. by left.
  - rewrite IH. destruct (bool_decide (key ∈ map fst rest)) eqn:Hin.
    + apply bool_decide_eq_true in Hin.
      rewrite bool_decide_eq_true_2; [done|]. apply elem_of_cons. by right.
    + apply bool_decide_eq_false in Hin.
      rewrite bool_decide_eq_false_2; [done|].
      intros [?|?]%elem_of_cons; congruence.
Qed.

Lemma group_set_NoDup {A} key (g : list A) object :
  NoDup (map fst object) -> NoDup (map fst (group_set key g object)).
Proof.
  intros Hnd. rewrite group_set_keys.
  destruct (bool_decide (key ∈ map fst object)) eqn:Hin; [done|].
  apply bool_decide_eq_false in Hin.
  apply NoDup_app. split; [done|]. split.
  - intros k Hk [->|[]%elem_of_nil]%elem_of_cons. done.
  - apply NoDup_singleton.
Qed.

Lemma group_lookup_None {A} key (object : list (string * list A)) :
  group_lookup key object = None <-> key ∉ map fst object.
Proof.
  induction object as [|[k g] rest IH]; cbn.
  - split; [intros _ []%elem_of_nil|done].
  - destruct (String.eqb_spec k key) as [->|Hne].
    + split; [discriminate|]. intros H. exfalso. apply H.
      apply elem_of_cons. by left.
    + rewrite IH. split.
      * intros H [?|?]%elem_of_cons; congruence.
      * intros H Hin. apply H. apply elem_of_cons. by right.
Qed.

Lemma group_lookup_elem {A} key g (object : list (string * list A)) :
  NoDup (map fst object) -> (key, g) ∈ object ->
  group_lookup key object = Some g.
Proof.
  induction object as [|[k g0] rest IH]; intros Hnd Hin.
  - by apply elem_of_nil in Hin.
  - cbn in Hnd. apply NoDup_cons in Hnd as [Hfresh Hnd].
    apply elem_of_cons in Hin as [Heq|Hin]; cbn.
    + injection Heq as -> ->. by rewrite String.eqb_refl.
    + destruct (String.eqb_spec k key) as [->|_]; [|by apply IH].
      exfalso. apply Hfresh. apply list_elem_of_fmap. by exists (key, g).
Qed.

Lemma group_lookup_Some_key {A} key g (object : list (string * list A)) :
  group_lookup key object = Some g -> key ∈ map fst object.
Proof.
  intros H. destruct (decide (key ∈ map fst object)) as [|Hno]; [done|].
  apply group_lookup_None in Hno. congruence.
Qed.

Section Grouping.
Context {A : Type} (createKey : A -> string).

Lemma fold_group_lookup snapshots object0 object key :
  fold_left (group_step createKey) snapshots (Returned object0)
  = Returned object ->
  group_lookup key object
  = match group_lookup key object0,
          filter (fun r => createKey r = key) snapshots with
    | None, [] => None
    | o, found => Some (default [] o ++ found)
    end.
Proof.
  revert object0. induction snapshots as [|r rest IH]; intros object0;
    cbn [fold_left].
  - intros [= <-]. cbn.
    destruct (group_lookup key object0); cbn; by rewrite ?app_nil_r.
  - unfold group_step at 2.
    destruct (group_lookup (createKey r) object0) as [g|] eqn:Hg;
      [|destruct (inherited (createKey r));
        [by rewrite PatcherFacts.fold_group_Thrown|]].
    all: intros H; rewrite (IH _ H), PatcherFacts.group_lookup_set.
    all: destruct (String.eqb_spec (createKey r) key) as [Heq|Hne].
    all: rewrite ?filter_cons_True, ?filter_cons_False by done.
    all: try done.
    + rewrite <- Heq, Hg. cbn. by rewrite <- app_assoc.
    + rewrite <- Heq, Hg. done.
Qed.

Lemma fold_group_NoDup snapshots object0 object :
  NoDup (map fst object0) ->
  fold_left (group_step createKey) snapshots (Returned object0)
  = Returned object ->
  NoDup (map fst object).
Proof.
  revert object0. induction snapshots as [|r rest IH]; intros object0 Hnd;
    cbn [fold_left].
  - by intros [= <-].
  - unfold group_step at 2.
    destruct (group_lookup (createKey r) object0) as [g|];
      [|destruct (inherited (createKey r));
        [by rewrite PatcherFacts.fold_group_Thrown|]].
    all: apply IH; by apply group_set_NoDup.
Qed.

Lemma group_set_own key (g : list A) object0 :
  (forall k, k ∈ map fst object0 -> inherited k = false) ->
  inherited key = false ->
  forall k, k ∈ map fst (group_set key g object0) -> inherited k = false.
Proof.
  intros Hown Hkey k. rewrite group_set_keys.
  destruct (bool_decide _); [apply Hown|].
  intros [Hk|Hk%list_elem_of_singleton]%elem_of_app;
    [by apply Hown|by subst].
Qed.

(** Whether the reduction returns: it throws at the first record whose
    key is an inherited property. *)
Lemma fold_group_outcome snapshots object0 :
  (forall key, key ∈ map fst object0 -> inherited key = false) ->
  match fold_left (group_step createKey) snapshots (Returned object0) with
  | Returned _ => Forall (fun r => inherited (createKey r) = false) snapshots
  | Thrown m =>
      m = concat_message
      /\ Exists (fun r => inherited (createKey r) = true) snapshots
  end.
Proof.
  revert object0. induction snapshots as [|r rest IH]; intros object0 Hown;
    cbn [fold_left].
  - constructor.
  - unfold group_step at 2.
    destruct (group_lookup (createKey r) object0) as [g|] eqn:Hg.
    + pose proof (Hown _ (group_lookup_Some_key _ _ _ Hg)) as Hr.
      specialize (IH (group_set (createKey r) (g ++ [r]) object0)
                     (group_set_own _ _ _ Hown Hr)).
      destruct (fold_left _ rest _) as [object|m].
      * by constructor.
      * destruct IH as [-> Hex]. split; [done|by apply Exists_cons_tl].
    + destruct (inherited (createKey r)) eqn:Hr.
      * rewrite PatcherFacts.fold_group_Thrown.
        split; [done|]. by apply Exists_cons_hd.
      * specialize (IH (group_set (createKey r) [r] object0)
                       (group_set_own _ _ _ Hown Hr)).
        destruct (fold_left _ rest _) as [object|m].
        -- by constructor.
        -- destruct IH as [-> Hex]. split; [done|by apply Exists_cons_tl].
Qed.

Lemma groupSnapshotsBy_returned snapshots object :
  groupSnapshotsBy createKey snapshots = Returned object ->
  NoDup (map fst object)
  /\ (forall key,
        group_lookup key object
        = match filter (fun r => createKey r = key) snapshots with
          | [] => None
          | found => Some found
          end)
  /\ (forall key group,
        (key, group) ∈ object ->
        group <> []
        /\ group = filter (fun r => createKey r = key) snapshots).
Proof.
  intros Hret.
  assert (NoDup (map fst object)) as Hnd.
  { apply (fold_group_NoDup snapshots [] object); [constructor|done]. }
  assert (forall key,
             group_lookup key object
             = match filter (fun r => createKey r = key) snapshots with
               | [] => None
               | found => Some found
               end) as Hlook.
  { intros key. rewrite (fold_group_lookup snapshots [] object key Hret).
    cbn. by destruct (filter _ snapshots). }
  split; [done|]. split; [done|].
  intros key group Hin.
  pose proof (group_lookup_elem key group _ Hnd Hin) as H.
  rewrite Hlook in H.
  destruct (filter _ snapshots) eqn:Hf; [discriminate|].
  injection H as <-. done.
Qed.

(** [groupSnapshotsBy] throws exactly when the key of some record is a
    property that objects inherit ([constructor], [toString],
    [__proto__], ...).  Otherwise it partitions its input: the keys of
    the result are distinct, the group of a key is made of the records
    with that key, in their order, and it is there exactly when there
    is such a record (no group is empty). *)
Theorem groupSnapshotsBy_partition (snapshots : list A) :
  match groupSnapshotsBy createKey snapshots with
  | Returned object =>
      Forall (fun r => inherited (createKey r) = false) snapshots
      /\ NoDup (map fst object)
      /\ (forall key,
            group_lookup key object
            = match filter (fun r => createKey r = key) snapshots with
              | [] => None
              | found => Some found
              end)
      /\ (forall key group,
            (key, group) ∈ object ->
            group <> []
            /\ group = filter (fun r => createKey r = key) snapshots)
  | Thrown m =>
      m = concat_message
      /\ Exists (fun r => inherited (createKey r) = true) snapshots
  end.
Proof.
  pose proof (fold_group_outcome snapshots []) as Hout.
  pose proof (groupSnapshotsBy_returned snapshots) as Hret.
  unfold groupSnapshotsBy in *.
  destruct (fold_left _ snapshots _) as [object|m].
  - split; [apply Hout; by intros key Hin%elem_of_nil|].
    by apply Hret.
  - apply Hout. by intros key Hin%elem_of_nil.
Qed.
End Grouping.

(** *** The visitor *)

Lemma other_arguments_replace args i raw :
  findIndex_TemplateLiteral args = Some i ->
  i < length args
  /\ other_arguments (<[i := TemplateLiteral raw]> args) = other_arguments args
  /\ existsb is_TemplateLiteral args = true.
Proof.
  unfold other_arguments.
  revert i. induction args as [|a args IH]; intros i;
    cbn [findIndex_TemplateLiteral]; [discriminate|].
  destruct a as [raw0|ty]; cbn [is_TemplateLiteral existsb orb length].
  - intros [= <-].
    change (<[0 := TemplateLiteral raw]> (TemplateLiteral raw0 :: args))
      with (TemplateLiteral raw :: args).
    split; [lia|]. split; [|done].
    by rewrite !filter_cons_False by (cbn; congruence).
  - destruct (findIndex_TemplateLiteral args) as [j|]; cbn [fmap option_fmap option_map];
      [|discriminate].
    intros [= <-]. destruct (IH j eq_refl) as (Hlt & Hf & He).
    change (<[S j := TemplateLiteral raw]> (OtherArgument ty :: args))
      with (OtherArgument ty :: <[j := TemplateLiteral raw]> args).
    split; [lia|]. split; [|done].
    by rewrite !filter_cons_True, Hf by done.
Qed.

Lemma other_arguments_push args raw :
  findIndex_TemplateLiteral args = None ->
  other_arguments (args ++ [TemplateLiteral raw]) = other_arguments args
  /\ existsb is_TemplateLiteral args = false.
Proof.
  unfold other_arguments.
  induction args as [|a args IH];
    cbn [findIndex_TemplateLiteral app existsb].
  - intros _. by rewrite filter_cons_False by (cbn; congruence).
  - destruct a as [raw0|ty]; cbn [is_TemplateLiteral orb]; [discriminate|].
    destruct (findIndex_TemplateLiteral args) as [j|]; cbn [fmap option_fmap option_map];
      [discriminate|].
    intros _. destruct (IH eq_refl) as (Hf & He).
    by rewrite !filter_cons_True, Hf by done.
Qed.

Section Visitor.
Variable E : Engine.

Lemma template_edit_refl n : template_edit n n.
Proof.
  unfold template_edit. repeat split. by left.
Qed.

(** What one visit returns: the call with its template argument set,
    when one record is bound to it, and the call as it was
    otherwise. *)
Lemma visit_result grouped n t n' t' :
  visitCallExpression E grouped n t = Returned (n', t') ->
  (n' = n /\ t' = t)
  \/ exists i r p,
       callee n = MemberExpression "Identifier" p
       /\ group_lookup (position_key p) grouped = Some [i]
       /\ records t !! i = Some r
       /\ n' = set_arguments
                 match findIndex_TemplateLiteral (arguments n) with
                 | Some j =>
                     <[j := TemplateLiteral
                              (escapeBacktickString E (snapshot r))]>
                       (arguments n)
                 | None =>
                     arguments n
                       ++ [TemplateLiteral
                             (escapeBacktickString E (snapshot r))]
                 end n
       /\ records t' = alter (set_node n') i (records t)
       /\ remainingSnapshots t'
          = remainingSnapshots t ∖ {[snapshot r]}.
Proof.
  unfold visitCallExpression.
  destruct (callee n) as [ty p|ty]; [|intros ?; simplify_eq; by left].
  destruct (String.eqb_spec ty "Identifier") as [->|_]; cbn [negb];
    [|intros ?; simplify_eq; by left].
  destruct (group_lookup _ _) as [g|] eqn:Hg; [|intros ?; simplify_eq; by left].
  destruct (Nat.ltb 1 (length g)) eqn:Hlen; [discriminate|].
  apply Nat.ltb_ge in Hlen.
  destruct g as [|i [|i' g']]; cbn in Hlen;
    [cbn; intros ?; simplify_eq; by left| |lia].
  destruct (records t !! i) as [ri|] eqn:Hi; cbn; rewrite ?Hi; cbn;
    [|intros ?; simplify_eq; by left].
  intros ?; simplify_eq. right. exists i, ri, p.
  repeat split; try done. cbn. f_equal. set_solver.
Qed.

Lemma visit_template_edit grouped n t n' t' :
  visitCallExpression E grouped n t = Returned (n', t') ->
  template_edit n n'.
Proof.
  intros H. apply visit_result in H as [[-> _]|(i & r & p & _ & _ & _ & -> & _)].
  - apply template_edit_refl.
  - unfold template_edit. cbn [set_arguments callee start end_ arguments].
    repeat split.
    + destruct (findIndex_TemplateLiteral (arguments n)) as [j|] eqn:Hf.
      * by apply other_arguments_replace.
      * by apply other_arguments_push.
    + right.
      destruct (findIndex_TemplateLiteral (arguments n)) as [j|] eqn:Hf.
      * destruct (other_arguments_replace (arguments n) j
                    (escapeBacktickString E (snapshot r)) Hf)
          as (_ & _ & ->).
        by rewrite length_insert.
      * destruct (other_arguments_push (arguments n)
                    (escapeBacktickString E (snapshot r)) Hf) as (_ & ->).
        rewrite length_app. cbn. lia.
Qed.

Lemma traverse_calls_template_edit grouped ast t ast' t' :
  traverse_calls E grouped ast t = Returned (ast', t') ->
  Forall2 template_edit ast ast'.
Proof.
  revert t ast'. induction ast as [|n rest IH]; intros t ast'; cbn.
  - intros ?; simplify_eq. constructor.
  - destruct (visitCallExpression E grouped n t) as [[n1 t1]|] eqn:Hv;
      [|discriminate].
    destruct (traverse_calls E grouped rest t1) as [[rest1 t2]|] eqn:Hr;
      [|discriminate].
    intros ?; simplify_eq. constructor.
    + by apply (visit_template_edit grouped n t n1 t1).
    + by apply (IH t1 rest1).
Qed.

(** A traversal that returns has visited every call and changed
    nothing but template-literal arguments: each call keeps its
    callee, its span and, in order, its arguments that are not template
    literals; it has at most one argument more, and no more when it
    had a template literal. *)
Theorem traverseAst_edits_templates (snapshots bound : list InlineSnapshot)
    (ast ast' : list CallExpression) :
  traverseAst E snapshots ast = Returned (bound, ast') ->
  Forall2 template_edit ast ast'.
Proof.
  unfold traverseAst.
  destruct (groupSnapshotsByFrame snapshots) as [grouped|]; [|discriminate].
  destruct (traverse_calls E _ ast _) as [[ast1 t1]|] eqn:Htr;
    [|discriminate].
  destruct (negb (Nat.eqb (size (remainingSnapshots t1)) 0));
    [discriminate|].
  intros ?; simplify_eq.
  exact (traverse_calls_template_edit _ _ _ _ _ Htr).
Qed.
End Visitor.

(** *** What the traversal binds *)

Lemma insert_template_elem (args : list Argument) j x :
  j < length args -> x ∈ <[j := x]> args.
Proof.
  intros Hj. apply list_elem_of_lookup. exists j.
  by apply list_lookup_insert_eq.
Qed.

Lemma bound_from_mono E done done' r0 r :
  (forall n, n ∈ done -> n ∈ done') ->
  bound_from E done r0 r -> bound_from E done' r0 r.
Proof.
  intros Hsub (Hs & Hf & Hn). repeat split; try done.
  all: destruct (Hn n H) as (? & ? & ?); auto.
Qed.

Lemma bound_from_unbound E (snapshots : list InlineSnapshot) :
  Forall (fun r => node r = None) snapshots ->
  Forall2 (bound_from E []) snapshots snapshots.
Proof.
  induction 1 as [|r rest Hr _ IH]; constructor; [|done].
  repeat split; rewrite Hr in *; discriminate.
Qed.

(** The groups of [groupSnapshotsByFrame] hold indices of records whose
    frame gives the key. *)
Lemma groupSnapshotsByFrame_member snapshots grouped key g i :
  groupSnapshotsByFrame snapshots = Returned grouped ->
  group_lookup key grouped = Some g ->
  i ∈ g ->
  exists r0, snapshots !! i = Some r0 /\ frame_key (frame r0) = key.
Proof.
  intros Hgrouped Hg Hi.
  pose proof (PatcherFacts.groupSnapshotsBy_lookup
    (fun i => default EmptyString (frame_key <$> (frame <$> snapshots !! i)))
    (seq 0 (length snapshots)) key grouped Hgrouped) as Hl.
  rewrite Hg in Hl. cbn in Hl.
  rewrite Hl in Hi. apply list_elem_of_filter in Hi as [Hkey Hseq].
  apply elem_of_seq in Hseq as [_ Hlt]. cbn in Hlt.
  destruct (lookup_lt_is_Some_2 snapshots i Hlt) as [r0 Hr0].
  exists r0. split; [done|]. by rewrite Hr0 in Hkey.
Qed.

Section Binding.
Variable E : Engine.
Variable snapshots : list InlineSnapshot.

Lemma visit_bound grouped done n t n' t' :
  groupSnapshotsByFrame snapshots = Returned grouped ->
  Forall2 (bound_from E done) snapshots (records t) ->
  visitCallExpression E grouped n t = Returned (n', t') ->
  Forall2 (bound_from E (done ++ [n'])) snapshots (records t').
Proof.
  intros Hgrouped Hinv Hv.
  assert (Forall2 (bound_from E (done ++ [n'])) snapshots (records t))
    as Hinv'.
  { eapply Forall2_impl; [exact Hinv|]. intros r0 r.
    apply bound_from_mono. intros m Hm. apply elem_of_app. by left. }
  apply visit_result in Hv
    as [[-> ->]|(i & r & p & Hc & Hg & Hi & Hn & -> & _)]; [done|].
  apply Forall2_alter_r; [done|]. intros r0 r' Hr0 Hr' (Hs & Hf & _).
  rewrite Hi in Hr'. injection Hr' as <-.
  destruct (groupSnapshotsByFrame_member snapshots grouped (position_key p)
              [i] i Hgrouped Hg)
    as (r1 & Hr1 & Hkey); [apply list_elem_of_singleton; done|].
  rewrite Hr0 in Hr1. injection Hr1 as <-.
  split; [done|]. split; [done|]. cbn [set_node node snapshot frame].
  intros m [= <-]. split; [|split].
  - apply elem_of_app. right. by apply list_elem_of_singleton.
  - exists p. rewrite Hn. cbn [set_arguments callee]. split; [done|].
    by rewrite Hf.
  - rewrite Hn. cbn [set_arguments arguments].
    destruct (findIndex_TemplateLiteral (arguments n)) as [j|] eqn:Hfi.
    + apply insert_template_elem.
      by destruct (other_arguments_replace (arguments n) j EmptyString Hfi).
    + apply elem_of_app. right. by apply list_elem_of_singleton.
Qed.

Lemma traverse_calls_bound grouped done ast t ast' t' :
  groupSnapshotsByFrame snapshots = Returned grouped ->
  Forall2 (bound_from E done) snapshots (records t) ->
  traverse_calls E grouped ast t = Returned (ast', t') ->
  Forall2 (bound_from E (done ++ ast')) snapshots (records t').
Proof.
  intros Hgrouped. revert done t ast'.
  induction ast as [|n rest IH]; intros done t ast' Hinv; cbn.
  - intros ?; simplify_eq. by rewrite app_nil_r.
  - destruct (visitCallExpression E _ n t) as [[n1 t1]|] eqn:Hv;
      [|discriminate].
    destruct (traverse_calls E _ rest t1) as [[rest1 t2]|] eqn:Hr;
      [|discriminate].
    intros ?; simplify_eq.
    replace (done ++ n1 :: rest1) with ((done ++ [n1]) ++ rest1)
      by (by rewrite <- app_assoc).
    apply (IH (done ++ [n1]) t1 rest1); [|done].
    by apply (visit_bound grouped done n t n1 t1).
Qed.

(** A traversal that starts from unbound records and returns leaves
    every record with its text and its frame; a record it has bound
    holds one of the calls of the tree as the traversal left it, whose
    callee has an identifier property at the position of the record's
    frame and whose arguments have the record's escaped text as a
    template literal. *)
Theorem traverseAst_binds (bound : list InlineSnapshot)
    (ast ast' : list CallExpression) :
  Forall (fun r => node r = None) snapshots ->
  traverseAst E snapshots ast = Returned (bound, ast') ->
  Forall2 (bound_from E ast') snapshots bound.
Proof.
  intros Hnone. unfold traverseAst.
  destruct (groupSnapshotsByFrame snapshots) as [grouped|] eqn:Hgrouped;
    [|discriminate].
  destruct (traverse_calls E _ ast _) as [[ast1 t1]|] eqn:Htr;
    [|discriminate].
  destruct (negb (Nat.eqb (size (remainingSnapshots t1)) 0));
    [discriminate|].
  intros ?; simplify_eq.
  exact (traverse_calls_bound grouped [] ast
           {| records := snapshots;
              remainingSnapshots := list_to_set (map snapshot snapshots) |}
           ast' t1 Hgrouped (bound_from_unbound E snapshots Hnone) Htr).
Qed.

(** When the pending records carry pairwise distinct texts, a traversal
    that starts from unbound records and returns has bound every
    record to a call. *)
Theorem traverseAst_all_bound (bound : list InlineSnapshot)
    (ast ast' : list CallExpression) :
  Forall (fun r => node r = None) snapshots ->
  NoDup (map snapshot snapshots) ->
  traverseAst E snapshots ast = Returned (bound, ast') ->
  Forall (fun r => is_Some (node r)) bound.
Proof.
  intros Hnone Hnd. unfold traverseAst.
  destruct (groupSnapshotsByFrame snapshots) as [grouped|]; [|discriminate].
  destruct (traverse_calls E _ ast _) as [[ast1 t1]|] eqn:Htr;
    [|discriminate].
  destruct (Nat.eqb_spec (size (remainingSnapshots t1)) 0) as [Hsz|_];
    cbn [negb]; [|discriminate].
  intros ?; simplify_eq.
  destruct (PatcherFacts.traverse_calls_invariant E snapshots _ ast _ ast' t1
              (PatcherFacts.remaining_invariant_init snapshots Hnone) Htr)
    as [Htexts Hrem].
  apply size_empty_inv in Hsz. apply leibniz_equiv in Hsz.
  assert (map snapshot (records t1) = map snapshot snapshots) as Hmap.
  { apply list_eq. intros j. rewrite !list_lookup_fmap. apply Htexts. }
  apply Forall_lookup. intros i r Hi.
  destruct (node r) as [m|] eqn:Hm; [by eexists|]. exfalso.
  assert (snapshot r ∈ remainingSnapshots t1) as Hin.
  { apply Hrem. split.
    - rewrite <- Hmap. apply list_elem_of_fmap. exists r. split; [done|].
      apply list_elem_of_lookup. by exists i.
    - intros j r' Hj [m' Hm'] Heq.
      assert (i = j) as ->.
      { rewrite <- Hmap in Hnd.
        apply (NoDup_lookup _ i j (snapshot r) Hnd).
        - by rewrite list_lookup_fmap, Hi.
        - rewrite list_lookup_fmap, Hj. cbn. by rewrite Heq. }
      rewrite Hi in Hj. injection Hj as <-. congruence. }
  rewrite Hsz in Hin. by apply elem_of_empty in Hin.
Qed.
End Binding.

Lemma traverseAst_edits_templates_witness :
  Forall2 template_edit sample_calls
    [set_arguments [TemplateLiteral "x"] (call_at 1 10 0 33);
     {| callee := OtherCallee "Identifier";
        arguments := [OtherArgument "NumericLiteral"];
        start := Some 0; end_ := Some 9 |}].
Proof.
  apply (traverseAst_edits_templates sample_engine [record_x 1 11]
           [set_node (set_arguments [TemplateLiteral "x"] (call_at 1 10 0 33))
                     (record_x 1 11)]).
  vm_compute. reflexivity.
Defined.

Lemma traverseAst_binds_witness :
  Forall2
    (bound_from sample_engine
       [set_arguments [TemplateLiteral "x"] (call_at 1 10 0 33);
        {| callee := OtherCallee "Identifier";
           arguments := [OtherArgument "NumericLiteral"];
           start := Some 0; end_ := Some 9 |}])
    [record_x 1 11]
    [set_node (set_arguments [TemplateLiteral "x"] (call_at 1 10 0 33))
              (record_x 1 11)].
Proof.
  apply (traverseAst_binds sample_engine [record_x 1 11] _ sample_calls).
  - repeat constructor.
  - vm_compute. reflexivity.
Defined.

Lemma traverseAst_all_bound_witness :
  Forall (fun r => is_Some (node r))
    [set_node (set_arguments [TemplateLiteral "x"] (call_at 1 10 0 33))
              (record_x 1 11)].
Proof.
  apply (traverseAst_all_bound sample_engine [record_x 1 11] _ sample_calls
           [set_arguments [TemplateLiteral "x"] (call_at 1 10 0 33);
            {| callee := OtherCallee "Identifier";
               arguments := [OtherArgument "NumericLiteral"];
               start := Some 0; end_ := Some 9 |}]).
  - repeat constructor.
  - cbn. apply NoDup_singleton.
  - vm_compute. reflexivity.
Defined.

(** *** Substitution *)

Lemma slice_to_from from s : slice_to from s +:+ slice_from from s = s.
Proof.
  revert s. induction from as [|k IH]; intros [|c s]; cbn; try done.
  by rewrite LiteralMoreFacts.append_String, IH.
Qed.

Lemma slice_to_length b s :
  b <= String.length s -> String.length (slice_to b s) = b.
Proof.
  revert s. induction b as [|k IH]; intros [|c s]; cbn; try lia.
  intros H. rewrite IH; lia.
Qed.

Lemma slice_to_app a s x :
  a <= String.length s -> slice_to a (s +:+ x) = slice_to a s.
Proof.
  revert s. induction a as [|k IH]; intros [|c s]; cbn; try lia.
  - by destruct x.
  - done.
  - intros H. rewrite LiteralMoreFacts.append_String. cbn. rewrite IH; [done|lia].
Qed.

Lemma slice_to_slice_to a b s :
  a <= b -> slice_to a (slice_to b s) = slice_to a s.
Proof.
  revert b s. induction a as [|k IH]; intros [|b] [|c s]; cbn; try done;
    try lia.
  intros H. rewrite IH; [done|lia].
Qed.

Lemma slice_from_app s x : slice_from (String.length s) (s +:+ x) = x.
Proof.
  induction s as [|c s IH]; cbn; [by destruct x|]. by rewrite LiteralMoreFacts.append_String.
Qed.

Lemma slice_from_slice_to_app b s x :
  b <= String.length s -> slice_from b (slice_to b s +:+ x) = x.
Proof.
  intros H. pose proof (slice_from_app (slice_to b s) x) as Hx.
  by rewrite (slice_to_length b s H) in Hx.
Qed.

Lemma slice_to_split from a s :
  from <= a ->
  slice_to a s = slice_to from s +:+ slice_to (a - from) (slice_from from s).
Proof.
  revert a s. induction from as [|k IH]; intros a s H.
  - cbn. rewrite Nat.sub_0_r. by destruct s.
  - destruct a as [|a]; [lia|]. destruct s as [|c s]; cbn;
      [by destruct (a - k)|].
    rewrite LiteralMoreFacts.append_String, <- IH; [done|lia].
Qed.

Section Substitution.
Variable E : Engine.

Lemma substitute_all_from sourceFile snapshots from :
  from <= String.length sourceFile ->
  spans_from from (String.length sourceFile) snapshots ->
  substitute_all E snapshots sourceFile
  = Returned (slice_to from sourceFile +:+ splice E from sourceFile snapshots).
Proof.
  revert from. induction snapshots as [|r rest IH]; intros from Hfrom.
  - intros _. cbn. by rewrite slice_to_from.
  - intros (n & a & b & Hn & Ha & Hb & Hfa & Hab & Hlen & Hrest).
    cbn [substitute_all splice]. rewrite (IH b Hlen Hrest).
    unfold substitute. rewrite Hn, Ha, Hb. f_equal.
    rewrite slice_to_app by (rewrite slice_to_length; lia).
    rewrite slice_to_slice_to by done.
    rewrite (slice_from_slice_to_app b sourceFile _ Hlen).
    rewrite (slice_to_split from a sourceFile Hfa).
    by rewrite !LiteralMoreFacts.append_assoc.
Qed.

(** The substitution goes through the records from the last to the
    first, each step cutting the text that the steps before it have
    made.  When the bound nodes' spans lie in the source text one after
    the other, in the order of the records, the offsets of a step are
    not thrown off by the steps before it: the result is the source text
    with each span replaced by the code generated for its node, and the
    text before, between and after the spans kept. *)
Theorem substitute_all_splices (sourceFile : string)
    (snapshots : list InlineSnapshot) :
  spans_from 0 (String.length sourceFile) snapshots ->
  substitute_all E snapshots sourceFile
  = Returned (splice E 0 sourceFile snapshots).
Proof.
  intros H.
  by rewrite (substitute_all_from sourceFile snapshots 0 (Nat.le_0_l _) H).
Qed.
End Substitution.

Lemma substitute_all_splices_witness :
  substitute_all sample_engine
    [set_node (set_arguments [TemplateLiteral "x"] (call_at 1 10 0 33))
              (record_x 1 11)]
    sample_source
  = Returned "expect(1).toMatchInlineSnapshot(`x`);".
Proof.
  apply (substitute_all_splices sample_engine sample_source
           [set_node (set_arguments [TemplateLiteral "x"]
                        (call_at 1 10 0 33))
                     (record_x 1 11)]).
  cbn. eexists _, 0, 33. repeat split; cbn; lia.
Defined.

(** *** Which files a save touches *)

Lemma groupSnapshotsBy_keys {A} (createKey : A -> string) snapshots object
    key :
  groupSnapshotsBy createKey snapshots = Returned object ->
  key ∈ map fst object ->
  key ∈ map createKey snapshots.
Proof.
  intros Hret Hin.
  destruct (group_lookup key object) as [g|] eqn:Hg;
    [|by apply group_lookup_None in Hg].
  rewrite (fold_group_lookup createKey snapshots [] object key Hret) in Hg.
  cbn in Hg.
  destruct (filter _ snapshots) as [|r found] eqn:Hf; [discriminate|].
  assert (r ∈ filter (fun r => createKey r = key) snapshots) as Hr.
  { rewrite Hf. apply elem_of_cons. by left. }
  apply list_elem_of_filter in Hr as [<- Hr].
  apply list_elem_of_fmap. by exists r.
Qed.

Lemma insert_index_elem {B} n (entry : B) sorted x :
  x ∈ insert_index n entry sorted -> x = (n, entry) \/ x ∈ sorted.
Proof.
  induction sorted as [|[m e] rest IH]; cbn.
  - intros ->%list_elem_of_singleton. by left.
  - destruct (n <? m)%N.
    + intros [->|H]%elem_of_cons; [by left|by right].
    + intros [->|H]%elem_of_cons.
      * right. apply elem_of_cons. by left.
      * destruct (IH H) as [->|H']; [by left|].
        right. apply elem_of_cons. by right.
Qed.

Lemma index_entries_elem {B} (object : list (string * B)) x :
  x ∈ index_entries object -> x.2 ∈ object.
Proof.
  induction object as [|entry rest IH]; cbn.
  - by intros ?%elem_of_nil.
  - destruct (array_index entry.1).
    + intros [->|H]%insert_index_elem.
      * apply elem_of_cons. by left.
      * apply elem_of_cons. right. by apply IH.
    + intros H. apply elem_of_cons. right. by apply IH.
Qed.

(** [Object.keys] lists keys of the object only. *)
Lemma Object_entries_elem {B} (object : list (string * B)) entry :
  entry ∈ Object_entries object -> entry ∈ object.
Proof.
  unfold Object_entries. intros [H|H]%elem_of_app.
  - apply list_elem_of_fmap in H as (x & -> & Hx).
    by apply index_entries_elem.
  - apply list_elem_of_In, List.filter_In in H as [H _].
    by apply list_elem_of_In.
Qed.

Section Files.
Variable E : Engine.

Lemma saveSnapshotsForFile_frame snapshots sourceFilePath
    (fs : gmap string string) :
  dom (saveSnapshotsForFile E snapshots sourceFilePath fs).2 = dom fs
  /\ forall p, p <> sourceFilePath ->
       (saveSnapshotsForFile E snapshots sourceFilePath fs).2 !! p = fs !! p.
Proof.
  unfold saveSnapshotsForFile.
  destruct (fs !! sourceFilePath) as [sourceFile|] eqn:Hread; [|done].
  destruct (parse E sourceFilePath sourceFile) as [ast|]; [|done].
  destruct (traverseAst E snapshots ast) as [[bound ast']|]; [|done].
  destruct (substitute_all E bound sourceFile) as [new|]; [|done].
  destruct (negb (String.eqb new sourceFile)); [|done].
  cbn [snd]. split.
  - rewrite dom_insert_L.
    assert (sourceFilePath ∈ dom fs) by (apply elem_of_dom; eauto).
    set_solver.
  - intros p Hp. by rewrite lookup_insert_ne.
Qed.

Lemma save_files_frame files (fs : gmap string string) :
  dom (save_files E files fs).2 = dom fs
  /\ forall p, p ∉ map fst files -> (save_files E files fs).2 !! p = fs !! p.
Proof.
  revert fs. induction files as [|[path group] rest IH]; intros fs; [done|].
  cbn [save_files].
  destruct (saveSnapshotsForFile_frame group path fs) as [Hdom Hother].
  destruct (saveSnapshotsForFile E group path fs) as [[[]|m] fs1];
    cbn [snd] in *.
  - destruct (IH fs1) as [Hdom1 Hother1]. split; [congruence|].
    intros p Hp. cbn in Hp. apply not_elem_of_cons in Hp as [Hne Hp].
    rewrite (Hother1 p Hp). by apply Hother.
  - split; [done|]. intros p Hp. cbn in Hp.
    apply not_elem_of_cons in Hp as [Hne Hp]. by apply Hother.
Qed.

(** Whether it returns or throws, [saveInlineSnapshots] neither creates
    nor removes a file, and it leaves as it is every file that is not
    the file of the frame of one of the records. *)
Theorem saveInlineSnapshots_frame (snapshots : list InlineSnapshot)
    (fs : gmap string string) :
  dom (saveInlineSnapshots E snapshots fs).2 = dom fs
  /\ forall p, p ∉ map (fun r => file (frame r)) snapshots ->
       (saveInlineSnapshots E snapshots fs).2 !! p = fs !! p.
Proof.
  unfold saveInlineSnapshots.
  destruct (groupSnapshotsByFile snapshots) as [object|] eqn:Hobject;
    [|done].
  destruct (save_files_frame (Object_entries object) fs) as [Hdom Hother].
  split; [done|]. intros p Hp. apply Hother. intros Hin. apply Hp.
  apply list_elem_of_fmap in Hin as (entry & -> & Hentry).
  apply Object_entries_elem in Hentry.
  apply (groupSnapshotsBy_keys (fun r => file (frame r)) snapshots object);
    [done|].
  apply list_elem_of_fmap. by exists entry.
Qed.
End Files.

Lemma saveInlineSnapshots_frame_witness :
  (saveInlineSnapshots sample_engine [record_x 1 11]
     (<["b.test.js" := "expect(2);"]> sample_fs)).2 !! "b.test.js"
  = Some "expect(2);".
Proof.
  rewrite (proj2 (saveInlineSnapshots_frame sample_engine [record_x 1 11]
                    (<["b.test.js" := "expect(2);"]> sample_fs))
             "b.test.js").
  - reflexivity.
  - cbn. intros H. apply list_elem_of_singleton in H. discriminate.
Defined.

Section Atomicity.
Variable E : Engine.

(** [saveSnapshotsForFile] writes all the snapshots of a file or none:
    whenever it throws (the file cannot be read or parsed, two records
    meet on one call, a record is not located or has no insert
    location), the file system is as it was. *)
Theorem saveSnapshotsForFile_throws_unwritten
    (snapshots : list InlineSnapshot) (sourceFilePath : string)
    (fs fs' : gmap string string) (m : string) :
  saveSnapshotsForFile E snapshots sourceFilePath fs = (Thrown m, fs') ->
  fs' = fs.
Proof.
  unfold saveSnapshotsForFile.
  destruct (fs !! sourceFilePath) as [sourceFile|];
    [|by intros ?; simplify_eq].
  destruct (parse E sourceFilePath sourceFile) as [ast|];
    [|by intros ?; simplify_eq].
  destruct (traverseAst E snapshots ast) as [[bound ast']|];
    [|by intros ?; simplify_eq].
  destruct (substitute_all E bound sourceFile) as [new|];
    [|by intros ?; simplify_eq].
  destruct (negb (String.eqb new sourceFile)); discriminate.
Qed.
End Atomicity.

Lemma saveSnapshotsForFile_throws_unwritten_witness :
  (saveSnapshotsForFile sample_engine same_text_records "a.test.js"
     sample_fs).2
  = sample_fs.
Proof.
  apply (saveSnapshotsForFile_throws_unwritten sample_engine
           same_text_records "a.test.js" sample_fs _
           "Jest: no snapshot insert location found").
  vm_compute. reflexivity.
Defined.

(** *** Indentation *)

Lemma split_lines_cons s : exists line lines, split_lines s = line :: lines.
Proof.
  destruct s as [|c s]; cbn; [by eexists _, _|].
  destruct (Ascii.eqb c "010"); [by eexists _, _|].
  destruct (split_lines s); by eexists _, _.
Qed.

Lemma join_lines_cons c line lines :
  join_lines (String c line :: lines) = String c (join_lines (line :: lines)).
Proof. unfold join_lines. cbn. by destruct lines. Qed.

Lemma join_lines_break line lines :
  join_lines (EmptyString :: line :: lines)
  = String "010" (join_lines (line :: lines)).
Proof. reflexivity. Qed.

Lemma join_split_lines s : join_lines (split_lines s) = s.
Proof.
  induction s as [|c s IH]; [done|]. cbn [split_lines].
  destruct (Ascii.eqb_spec c "010") as [->|_].
  - destruct (split_lines_cons s) as (line & lines & Hs).
    rewrite Hs in *. by rewrite join_lines_break, IH.
  - destruct (split_lines_cons s) as (line & lines & Hs).
    rewrite Hs in *. by rewrite join_lines_cons, IH.
Qed.

Lemma split_lines_one_line s :
  "010"%char ∉ list_ascii_of_string s -> split_lines s = [s].
Proof.
  induction s as [|c s IH]; [done|]. cbn. intros Hnl.
  apply not_elem_of_cons in Hnl as [Hc Hs].
  destruct (Ascii.eqb_spec c "010") as [->|_]; [done|].
  by rewrite (IH Hs).
Qed.

Lemma string_repeat_empty n : string_repeat EmptyString n = EmptyString.
Proof. induction n as [|n IH]; [done|]. cbn. by rewrite IH. Qed.

Lemma imap_keep {A} (l : list A) : imap (fun _ x => x) l = l.
Proof.
  induction l as [|x l IH]; [done|]. cbn. f_equal. exact IH.
Qed.

(** A snapshot of one line (a text without line break) is not
    indented. *)
Theorem indent_one_line (snapshot : string) (numIndents : nat)
    (indentation : string) :
  "010"%char ∉ list_ascii_of_string snapshot ->
  indent snapshot numIndents indentation = snapshot.
Proof.
  intros Hnl. unfold indent. by rewrite (split_lines_one_line snapshot Hnl).
Qed.

Lemma indent_one_line_witness : indent "x" 2 "  " = "x".
Proof.
  apply (indent_one_line "x" 2 "  "). cbn.
  intros H. apply list_elem_of_singleton in H. discriminate.
Defined.

(** With the empty string for one level of indentation, [indent] gives
    the snapshot back, whatever its lines and the number of levels. *)
Theorem indent_empty_indentation (snapshot : string) (numIndents : nat) :
  indent snapshot numIndents EmptyString = snapshot.
Proof.
  unfold indent.
  rewrite (imap_ext _ (fun _ line => line) (split_lines snapshot)).
  - rewrite imap_keep. apply join_split_lines.
  - intros i line _. cbn beta. rewrite !string_repeat_empty.
    destruct (Nat.eqb i 0); [done|].
    destruct (negb _); [|done]. by destruct (String.eqb line EmptyString).
Qed.

End PatcherMoreFacts.
